(** * TerminalBot: supervised command execution and safety validation

    A shallow embedding of [terminalbot/agent/safety.py] (class
    [SafetyValidator]) and [terminalbot/executor/command.py] (class
    [CommandExecutor]), with the defaults of [terminalbot/config/settings.py].

    Python [str] values are embedded as [string]; the character-class
    functions below are those of Python on ASCII text (a character above
    127 is taken to be neither whitespace, nor a digit, nor a word
    character, and is left alone by [lower]). *)

From Stdlib Require Import ZArith List Bool Lia QArith.
From Stdlib Require Import Strings.Ascii Strings.String Numbers.DecimalString.
Import ListNotations.

Open Scope string_scope.
Open Scope Z_scope.

(** ** Python string primitives *)

Module PyStr.

Definition code (c : ascii) : N := N_of_ascii c.

(** [str.isspace] on ASCII: TAB, LF, VT, FF, CR, FS, GS, RS, US, SPACE. *)
Definition is_space (c : ascii) : bool :=
  let n := code c in
  ((9 <=? n) && (n <=? 13) || (28 <=? n) && (n <=? 32))%N.

Definition is_digit (c : ascii) : bool :=
  let n := code c in ((48 <=? n) && (n <=? 57))%N.

Definition is_upper (c : ascii) : bool :=
  let n := code c in ((65 <=? n) && (n <=? 90))%N.

Definition is_lower (c : ascii) : bool :=
  let n := code c in ((97 <=? n) && (n <=? 122))%N.

(** The class [\w] of the [re] module: letters, digits and the underscore. *)
Definition is_word (c : ascii) : bool :=
  is_upper c || is_lower c || is_digit c || (code c =? 95)%N.

Definition lower_char (c : ascii) : ascii :=
  if is_upper c then ascii_of_N (code c + 32) else c.

(** [str.lower] *)
Fixpoint lower (s : string) : string :=
  match s with
  | EmptyString => EmptyString
  | String c s' => String (lower_char c) (lower s')
  end.

(** [str.lstrip], [str.rstrip], [str.strip] without argument *)
Fixpoint lstrip (s : string) : string :=
  match s with
  | EmptyString => EmptyString
  | String c s' => if is_space c then lstrip s' else s
  end.

Fixpoint rstrip (s : string) : string :=
  match s with
  | EmptyString => EmptyString
  | String c s' =>
      match rstrip s' with
      | EmptyString => if is_space c then EmptyString else String c EmptyString
      | r => String c r
      end
  end.

Definition strip (s : string) : string := rstrip (lstrip s).

(** [str.split] without argument: the maximal runs of non-whitespace.
    [split_fold] returns the token that the head of the string is in the
    middle of, if any, and the tokens after it. *)
Fixpoint split_fold (s : string) : option string * list string :=
  match s with
  | EmptyString => (None, [])
  | String c s' =>
      let '(cur, toks) := split_fold s' in
      if is_space c then
        match cur with
        | Some t => (None, t :: toks)
        | None => (None, toks)
        end
      else
        match cur with
        | Some t => (Some (String c t), toks)
        | None => (Some (String c EmptyString), toks)
        end
  end.

Definition split (s : string) : list string :=
  match split_fold s with
  | (Some t, toks) => t :: toks
  | (None, toks) => toks
  end.

(** [strip_prefix p s] is the rest of [s] after its prefix [p]. *)
Fixpoint strip_prefix (p s : string) : option string :=
  match p, s with
  | EmptyString, _ => Some s
  | String _ _, EmptyString => None
  | String a p', String b s' =>
      if Ascii.eqb a b then strip_prefix p' s' else None
  end.

Definition starts_with (p s : string) : bool :=
  match strip_prefix p s with Some _ => true | None => false end.

(** [needle in hay] *)
Fixpoint contains (needle hay : string) : bool :=
  starts_with needle hay ||
  match hay with
  | EmptyString => false
  | String _ hay' => contains needle hay'
  end.

(** [sep.join(items)] *)
Fixpoint join (sep : string) (items : list string) : string :=
  match items with
  | [] => EmptyString
  | [x] => x
  | x :: rest => x ++ sep ++ join sep rest
  end.

(** [s[:n]] for an integer [n]: a negative bound counts from the end. *)
Definition slice_to (n : Z) (s : string) : string :=
  let len := Z.of_nat (String.length s) in
  let stop := if n <? 0 then Z.max 0 (len + n) else Z.min n len in
  substring 0 (Z.to_nat stop) s.

(** [s.replace(old, new)] for a non-empty [old]: the occurrences of [old]
    are replaced from the left, without overlap.  [skip] counts the
    characters of an occurrence still to be dropped. *)
Fixpoint replace_go (old new : string) (skip : nat) (s : string) : string :=
  match s with
  | EmptyString => EmptyString
  | String c s' =>
      match skip with
      | S k => replace_go old new k s'
      | O =>
          if starts_with old s
          then new ++ replace_go old new (Nat.pred (String.length old)) s'
          else String c (replace_go old new O s')
      end
  end.

Definition replace (old new s : string) : string := replace_go old new O s.

(** [str(n)] of an integer *)
Definition of_Z (n : Z) : string := NilZero.string_of_int (Z.to_int n).

Definition of_nat (n : nat) : string := of_Z (Z.of_nat n).

(** [int(s)] in base 10.  The parser skips the C whitespace on both
    sides (tab, line feed, vertical tab, form feed, carriage return and
    space: the separators 28-31, which [str.strip] removes, are not
    skipped), allows one sign, and reads digits that single underscores may
    group.  A literal of more than [int_max_str_digits] digits is refused
    (CPython 3.11 and later, with the default limit).  [None] stands for
    [ValueError]. *)
Definition is_int_space (c : ascii) : bool :=
  let n := code c in
  ((9 <=? n) && (n <=? 13) || (n =? 32))%N.

Fixpoint int_lstrip (s : string) : string :=
  match s with
  | EmptyString => EmptyString
  | String c s' => if is_int_space c then int_lstrip s' else s
  end.

Fixpoint int_rstrip (s : string) : string :=
  match s with
  | EmptyString => EmptyString
  | String c s' =>
      match int_rstrip s' with
      | EmptyString => if is_int_space c then EmptyString else String c EmptyString
      | r => String c r
      end
  end.

Definition digit_value (c : ascii) : Z := Z.of_N (code c) - 48.

Fixpoint parse_digits (acc : Z) (after_digit : bool) (s : string) : option Z :=
  match s with
  | EmptyString => if after_digit then Some acc else None
  | String c s' =>
      if is_digit c then parse_digits (10 * acc + digit_value c) true s'
      else if (code c =? 95)%N
           then if after_digit then parse_digits acc false s' else None
           else None
  end.

Definition int_max_str_digits : N := 4300.

Fixpoint count_digits (s : string) : N :=
  match s with
  | EmptyString => 0
  | String c s' => ((if is_digit c then 1 else 0) + count_digits s')%N
  end.

Definition py_int (s : string) : option Z :=
  let t := int_rstrip (int_lstrip s) in
  let '(negative, digits) :=
    match t with
    | String "+" r => (false, r)
    | String "-" r => (true, r)
    | _ => (false, t)
    end in
  if (int_max_str_digits <? count_digits digits)%N then None
  else option_map (fun n => if negative then - n else n)
                  (parse_digits 0 false digits).

(** [int(a / b)] for two integers.  The true division of two [int]s is
    the quotient rounded once to the nearest double, ties to the even
    significand, and [OverflowError] when that is 2^1024 or more; [int]
    then drops the fraction.  Only the integer part is computed here: a
    double holds 53 significant bits, so for a quotient [x] with
    [2^L <= x < 2^(L+1)] the doubles around [x] are the multiples of
    [2^(L-52)], and a quotient below 1 becomes 1.0 exactly when it is
    within [2^-54] of it. *)
Definition round_half_even (n d : Z) : Z :=
  let q := n / d in
  let r := n mod d in
  if 2 * r <? d then q
  else if d <? 2 * r then q + 1
  else if Z.even q then q else q + 1.

(** [a >= 0] and [b > 0]; [None] stands for [OverflowError] *)
Definition int_true_div_nonneg (a b : Z) : option Z :=
  let q := a / b in
  if q =? 0 then
    Some (if b * (2 ^ 54 - 1) <=? a * 2 ^ 54 then 1 else 0)
  else
    let L := Z.log2 q in
    if 52 <=? L then
      let ulp := 2 ^ (L - 52) in
      let v := round_half_even a (b * ulp) * ulp in
      if 2 ^ 1024 <=? v then None else Some v
    else
      let scale := 2 ^ (52 - L) in
      Some (round_half_even (a * scale) b / scale).

(** [b <> 0]; the sign is that of the quotient *)
Definition int_true_div (a b : Z) : option Z :=
  option_map (fun v => Z.sgn a * Z.sgn b * v)
             (int_true_div_nonneg (Z.abs a) (Z.abs b)).

(** The zero-width assertion [\b]: exactly one of the two neighbours is a
    word character, the ends of the string counting as non-word. *)
Definition is_word_opt (c : option ascii) : bool :=
  match c with Some a => is_word a | None => false end.

Definition word_boundary (prev next : option ascii) : bool :=
  xorb (is_word_opt prev) (is_word_opt next).

Definition head (s : string) : option ascii :=
  match s with EmptyString => None | String c _ => Some c end.

(** last character of [s], or [d] when [s] is empty *)
Fixpoint last_or (d : option ascii) (s : string) : option ascii :=
  match s with
  | EmptyString => d
  | String c s' => last_or (Some c) s'
  end.

(** Does [lit \b] match [text] at its first position, [prev] being the
    character before it? *)
Definition end_boundary (prev : option ascii) (lit text : string) : bool :=
  match strip_prefix lit text with
  | Some rest => word_boundary (last_or prev lit) (head rest)
  | None => false
  end.

(** Does [\b lit \b] match [text] at its first position? *)
Definition match_here (prev : option ascii) (lit text : string) : bool :=
  word_boundary prev (head text) && end_boundary prev lit text.

(** [re.search(r"\b" + re.escape(lit) + r"\b", text)] is not [None]. *)
Fixpoint search_from (prev : option ascii) (lit text : string) : bool :=
  match_here prev lit text ||
  match text with
  | EmptyString => false
  | String c text' => search_from (Some c) lit text'
  end.

Definition re_search_word (lit text : string) : bool :=
  search_from None lit text.

End PyStr.

(** ** Configuration ([config/settings.py]) *)

Module Settings.

Record ExecutionConfig := {
  command_timeout : Z;
  max_output_size : Z;
  max_concurrent_commands : Z;
  working_directory : option string
}.

Record SafetyConfig := {
  require_confirmation : bool;
  protected_processes : list string;
  protected_pids : list Z;
  dangerous_commands : list string
}.

Record LoggingConfig := {
  log_commands : bool;
  history_file : string
}.

Record Settings := {
  execution : ExecutionConfig;
  safety : SafetyConfig;
  logging : LoggingConfig
}.

Definition default_execution : ExecutionConfig :=
  {| command_timeout := 30;
     max_output_size := 10485760;
     max_concurrent_commands := 3;
     working_directory := None |}.

Definition default_safety : SafetyConfig :=
  {| require_confirmation := true;
     protected_processes :=
       ["systemd"; "init"; "sshd"; "NetworkManager"; "dbus-daemon"];
     protected_pids := [1];
     dangerous_commands :=
       ["rm"; "kill"; "killall"; "pkill"; "systemctl stop";
        "systemctl disable"; "systemctl mask"; "reboot"; "shutdown";
        "poweroff"] |}.

Definition default_logging : LoggingConfig :=
  {| log_commands := true; history_file := "~/.terminalbot_history" |}.

Definition default : Settings :=
  {| execution := default_execution;
     safety := default_safety;
     logging := default_logging |}.

End Settings.

(** ** Safety validation ([agent/safety.py]) *)

Module Safety.
Import PyStr Settings.

(** *** The process table seen through [psutil]

    A query by pid either finds the process or raises.  [psutil.Process]
    raises [NoSuchProcess] or [AccessDenied]; it rejects a negative pid
    with a [ValueError], which is [PidRejected] here. *)
Inductive lookup (A : Type) : Type :=
| Found (a : A)
| NoSuchProcess
| AccessDenied
| PidRejected.
Arguments Found {A} a.
Arguments NoSuchProcess {A}.
Arguments AccessDenied {A}.
Arguments PidRejected {A}.

Record proc_details := {
  pd_name : string;
  pd_cmdline : list string;
  pd_cpu_percent : Q;
  pd_memory_percent : Q
}.

(** one item of [psutil.process_iter(["pid", "name", "cmdline"])] *)
Record proc_entry := {
  pe_pid : Z;
  pe_name : string;
  pe_cmdline : option (list string)
}.

Record process_table := {
  process_name : Z -> lookup string;
  process_details : Z -> lookup proc_details;
  process_iter : list proc_entry
}.

Record matching_process := {
  mp_pid : Z;
  mp_name : string;
  mp_cmdline : string
}.

(** The three dictionaries that [validate_kill_command] hands back. *)
Inductive process_info : Type :=
| PidInfo (pid : Z) (name cmdline : string) (cpu_percent memory_percent : Q)
| MatchingProcesses (matching_processes : list matching_process) (count : nat)
| ServiceInfo (service action : string).

Section Validator.

Variable settings : Settings.
Variable os : process_table.

(** [SafetyValidator.is_dangerous_command] *)
Fixpoint first_dangerous (entries : list string) (command_lower : string)
  : option string :=
  match entries with
  | [] => None
  | dangerous_cmd :: rest =>
      if re_search_word dangerous_cmd command_lower
      then Some dangerous_cmd
      else first_dangerous rest command_lower
  end.

Definition is_dangerous_command (command : string) : bool :=
  let command_lower := strip (lower command) in
  match first_dangerous (dangerous_commands (safety settings)) command_lower with
  | Some _ => true
  | None => false
  end.

(** The loop over [protected_processes] closing [is_protected_process]. *)
Fixpoint check_protected_names (names : list string) (process_name_lower : string)
  : bool * option string :=
  match names with
  | [] => (false, None)
  | protected :: rest =>
      if contains (lower protected) process_name_lower
      then (true, Some ("'" ++ protected ++ "' is a protected system process"))
      else check_protected_names rest process_name_lower
  end.

Definition check_process_name (process_name : string) : bool * option string :=
  check_protected_names (protected_processes (safety settings)) (lower process_name).

Definition pid_in (pid : Z) (pids : list Z) : bool := existsb (Z.eqb pid) pids.

(** [SafetyValidator.is_protected_process] *)
Definition is_protected_process (identifier : string) : bool * option string :=
  match py_int identifier with
  | Some pid =>
      if pid_in pid (protected_pids (safety settings))
      then (true, Some ("PID " ++ of_Z pid ++ " is a protected system process"))
      else
        match process_name os pid with
        | Found process_name => check_process_name process_name
        | NoSuchProcess | AccessDenied => (false, None)
        | PidRejected => check_process_name identifier
        end
  | None => check_process_name identifier
  end.

(** [SafetyValidator._get_process_info] *)
Fixpoint matching (identifier_lower : string) (procs : list proc_entry)
  : list matching_process :=
  match procs with
  | [] => []
  | proc :: rest =>
      if contains identifier_lower (lower (pe_name proc))
      then {| mp_pid := pe_pid proc;
              mp_name := pe_name proc;
              mp_cmdline :=
                join " " (match pe_cmdline proc with Some l => l | None => [] end) |}
           :: matching identifier_lower rest
      else matching identifier_lower rest
  end.

Definition scan_by_name (identifier : string) : option process_info :=
  match matching (lower identifier) (process_iter os) with
  | [] => None
  | processes => Some (MatchingProcesses processes (List.length processes))
  end.

Definition _get_process_info (identifier : string) : option process_info :=
  match py_int identifier with
  | Some pid =>
      match process_details os pid with
      | Found d =>
          Some (PidInfo pid (pd_name d) (join " " (pd_cmdline d))
                        (pd_cpu_percent d) (pd_memory_percent d))
      | NoSuchProcess | AccessDenied => None
      | PidRejected => scan_by_name identifier
      end
  | None => scan_by_name identifier
  end.

Definition mem_string (x : string) (l : list string) : bool :=
  existsb (String.eqb x) l.

(** [SafetyValidator.validate_kill_command]:
    [(is_safe, error_message, process_info)] *)
Definition validate_kill_command (command : string)
  : bool * option string * option process_info :=
  let tokens := split command in
  match tokens with
  | [] => (false, Some "Empty command", None)
  | cmd :: _ =>
      if mem_string cmd ["kill"; "killall"; "pkill"] then
        if (List.length tokens <? 2)%nat
        then (false, Some ("No target specified for " ++ cmd), None)
        else
          let target := List.last tokens "" in
          let '(is_protected, reason) := is_protected_process target in
          if is_protected then (false, reason, None)
          else (true, None, _get_process_info target)
      else if contains "systemctl" cmd then
        if (List.length tokens <? 3)%nat
        then (false, Some "Incomplete systemctl command", None)
        else
          let action := nth 1 tokens "" in
          let service := nth 2 tokens "" in
          if mem_string action ["stop"; "disable"; "mask"] then
            let service_name := replace ".service" "" service in
            let '(is_protected, reason) := is_protected_process service_name in
            if is_protected then (false, reason, None)
            else (true, None, Some (ServiceInfo service action))
          else (true, None, None)
      else (true, None, None)
  end.

Definition kill_variants : list string :=
  ["kill"; "killall"; "pkill"; "systemctl stop"].

Definition is_kill_variant (command : string) : bool :=
  existsb (fun kill_cmd => contains kill_cmd (lower command)) kill_variants.

Definition termination_reason (info : option process_info) : string :=
  "This command will terminate processes" ++
  match info with
  | Some (MatchingProcesses _ count) =>
      " (" ++ of_nat count ++ " matching processes)"
  | Some (ServiceInfo service _) => " (service: " ++ service ++ ")"
  | Some (PidInfo _ _ _ _ _) => ""
  | None => ""
  end.

(** [SafetyValidator.requires_confirmation] *)
Definition requires_confirmation (command : string) : bool * option string :=
  if negb (require_confirmation (safety settings)) then (false, None)
  else if is_dangerous_command command then
    if is_kill_variant command then
      let '(is_safe, error, info) := validate_kill_command command in
      if negb is_safe then (true, error)
      else (true, Some (termination_reason info))
    else (true, Some "This is a potentially destructive command")
  else (false, None).

End Validator.

End Safety.

(** ** Command execution ([executor/command.py]) *)

Module Executor.
Import PyStr.

Record CommandResult := {
  command : string;
  returncode : Z;
  stdout : string;
  stderr : string;
  execution_time : Q;
  timed_out : bool;
  truncated : bool;
  working_directory : string
}.

(** [CommandResult.success] and [CommandResult.output] *)
Definition success (r : CommandResult) : bool :=
  (returncode r =? 0) && negb (timed_out r).

Definition output (r : CommandResult) : string := stdout r ++ stderr r.

(** *** The operating system, as one call of [execute] meets it

    An [exn] is an instance of a subclass of [Exception]; [str(e)] is its
    message. *)
Inductive exn : Type := PyException (message : string).

Definition str_of_exn (e : exn) : string :=
  match e with PyException m => m end.

(** [await asyncio.wait_for(process.communicate(), timeout)].  The captured
    bytes are given after [decode("utf-8", errors="replace")], which never
    fails; [returncode] is what [process.returncode] holds afterwards. *)
Inductive wait_outcome : Type :=
| Finished (out err : string) (code : Z)
| Expired
| WaitRaised (e : exn).

(** the second, one-second [communicate] after the group was killed *)
Inductive drain_outcome : Type :=
| Drained (out err : string) (code : Z)
| DrainExpired (code : option Z)
| DrainRaised (e : exn).

(** [os.killpg(os.getpgid(process.pid), 9)] *)
Inductive kill_outcome : Type :=
| Killed
| ProcessLookupError
| KillRaised (e : exn).

(** What a call yields: a value, or an exception that leaves it. *)
Inductive outcome (A : Type) : Type :=
| Ok (a : A)
| Raise (e : exn).
Arguments Ok {A} a.
Arguments Raise {A} e.

(** [os.getcwd()] fails when the current directory is gone or cannot be
    read; the event-loop clock is always there.  Task cancellation and
    interrupts, which are not [Exception]s, are outside this model: every
    answer of the environment is a value or an [Exception]. *)
Record Env := {
  getcwd : outcome string;
  loop_time_start : Q;
  loop_time_end : Q;
  now_isoformat : string;
  create_subprocess_shell : string -> string -> option exn;
  communicate : Z -> wait_outcome;
  killpg : kill_outcome;
  communicate_again : drain_outcome;
  append_history : option exn
}.

(** What a call does to the outside world, oldest event first. *)
Inductive event : Type :=
| Spawned (command cwd : string)
| GroupKilled
| HistoryLine (line : string).

(** *** Exceptions and effects *)
Definition M (A : Type) : Type := list event -> outcome A * list event.

Definition ret {A} (a : A) : M A := fun tr => (Ok a, tr).

Definition raise {A} (e : exn) : M A := fun tr => (Raise e, tr).

Definition bind {A B} (m : M A) (f : A -> M B) : M B :=
  fun tr =>
    match m tr with
    | (Ok a, tr') => f a tr'
    | (Raise e, tr') => (Raise e, tr')
    end.

Definition emit (ev : event) : M unit := fun tr => (Ok tt, (tr ++ [ev])%list).

(** the answer of a call that has no effect of its own *)
Definition lift {A} (o : outcome A) : M A := fun tr => (o, tr).

(** [try: body  except Exception as e: handler(e)] *)
Definition try_except {A} (body : M A) (handler : exn -> M A) : M A :=
  fun tr =>
    match body tr with
    | (Ok a, tr') => (Ok a, tr')
    | (Raise e, tr') => handler e tr'
    end.

Notation "x <- m ;; k" := (bind m (fun x => k))
  (at level 61, m at next level, right associativity).
Notation "m ;;; k" := (bind m (fun _ => k))
  (at level 61, right associativity).

Definition newline : string := String "010"%char EmptyString.

Definition truncation_marker : string := newline ++ "[... OUTPUT TRUNCATED ...]".

(** [len(s)]: a [str] holds at most [sys.maxsize] characters *)
Definition sys_maxsize : Z := 2 ^ 63 - 1.

Definition len (s : string) : Z := Z.min (Z.of_nat (String.length s)) sys_maxsize.

Section Execute.

Variable settings : Settings.Settings.
Variable env : Env.

(** [CommandExecutor._log_command] *)
Definition _log_command (command : string) (result : CommandResult) : M unit :=
  if negb (Settings.log_commands (Settings.logging settings)) then ret tt
  else
    try_except
      (match append_history env with
       | Some e => raise e
       | None =>
           let status := if success result then "SUCCESS" else "FAILED" in
           emit (HistoryLine
                   (now_isoformat env ++ " | " ++ status ++ " | " ++ command ++ newline))
       end)
      (fun _ => ret tt).

(** the wait for completion, with the kill on timeout (lines 138-167):
    [(stdout, stderr, process.returncode, timed_out)] *)
Definition collect_output (timeout : Z)
  : M (string * string * option Z * bool) :=
  match communicate env timeout with
  | Finished out err code => ret (out, err, Some code, false)
  | WaitRaised e => raise e
  | Expired =>
      match killpg env with
      | Killed => emit GroupKilled
      | ProcessLookupError => ret tt
      | KillRaised e => raise e
      end ;;;
      match communicate_again env with
      | Drained out err code => ret (out, err, Some code, true)
      | DrainExpired code =>
          ret ("", "Command timed out and was terminated", code, true)
      | DrainRaised e => raise e
      end
  end.

(** the output size limit (lines 169-182).  The division is the true
    division of two integers, a float; [None] is its [OverflowError]. *)
Definition output_limits (max_size len_out len_err : Z) : option (Z * Z) :=
  match int_true_div (max_size * len_out) (len_out + len_err) with
  | Some stdout_limit =>
      let stderr_limit := max_size - stdout_limit in
      Some (stdout_limit, stderr_limit)
  | None => None
  end.

Definition enforce_limit (stdout stderr : string) : M (string * string * bool) :=
  let max_size := Settings.max_output_size (Settings.execution settings) in
  let len_out := len stdout in
  let len_err := len stderr in
  let total_output_size := len_out + len_err in
  if total_output_size >? max_size then
    if total_output_size =? 0 then raise (PyException "division by zero")
    else
      match output_limits max_size len_out len_err with
      | None =>
          raise (PyException "integer division result too large for a float")
      | Some (stdout_limit, stderr_limit) =>
          ret (slice_to stdout_limit stdout ++ truncation_marker,
               slice_to stderr_limit stderr ++ truncation_marker,
               true)
      end
  else ret (stdout, stderr, false).

(** [process.returncode or (124 if timed_out else 0)] *)
Definition exit_code (code : option Z) (timed_out : bool) : Z :=
  match code with
  | Some c => if c =? 0 then (if timed_out then 124 else 0) else c
  | None => if timed_out then 124 else 0
  end.

Definition resolve_timeout (timeout : option Z) : Z :=
  match timeout with
  | Some t => t
  | None => Settings.command_timeout (Settings.execution settings)
  end.

(** [self.settings.execution.working_directory or os.getcwd()] when no
    [cwd] is passed (lines 105-106, before the [try] block) *)
Definition resolve_cwd (cwd : option string) : outcome string :=
  match cwd with
  | Some d => Ok d
  | None =>
      match Settings.working_directory (Settings.execution settings) with
      | Some d => if String.eqb d "" then getcwd env else Ok d
      | None => getcwd env
      end
  end.

(** the body of the [try] block of [execute] (lines 127-200) *)
Definition attempt (command : string) (timeout : Z) (cwd : string)
  : M CommandResult :=
  let start_time := loop_time_start env in
  match create_subprocess_shell env command cwd with
  | Some e => raise e
  | None => emit (Spawned command cwd)
  end ;;;
  collected <- collect_output timeout ;;
  let '(out, err, code, timed_out) := collected in
  limited <- enforce_limit out err ;;
  let '(out, err, truncated) := limited in
  let execution_time := (loop_time_end env - start_time)%Q in
  let result :=
    {| command := command;
       returncode := exit_code code timed_out;
       stdout := out;
       stderr := err;
       execution_time := execution_time;
       timed_out := timed_out;
       truncated := truncated;
       working_directory := cwd |} in
  _log_command command result ;;;
  ret result.

(** the [except Exception as e] block of [execute] (lines 202-216) *)
Definition on_error (command : string) (cwd : string) (e : exn)
  : M CommandResult :=
  let start_time := loop_time_start env in
  let execution_time := (loop_time_end env - start_time)%Q in
  let result :=
    {| command := command;
       returncode := 1;
       stdout := "";
       stderr := "Execution error: " ++ str_of_exn e;
       execution_time := execution_time;
       timed_out := false;
       truncated := false;
       working_directory := cwd |} in
  _log_command command result ;;;
  ret result.

(** [CommandExecutor.execute] *)
Definition execute (command : string) (timeout : option Z)
    (cwd : option string) (dry_run : bool) : M CommandResult :=
  let timeout := resolve_timeout timeout in
  cwd <- lift (resolve_cwd cwd) ;;
  if dry_run then
    ret {| command := command;
           returncode := 0;
           stdout := "[DRY RUN] Command would be executed";
           stderr := "";
           execution_time := 0%Q;
           timed_out := false;
           truncated := false;
           working_directory := cwd |}
  else
    try_except (attempt command timeout cwd) (on_error command cwd).

(** one call, starting from an empty trace *)
Definition run_execute (command : string) (timeout : option Z)
    (cwd : option string) (dry_run : bool)
  : outcome CommandResult * list event :=
  execute command timeout cwd dry_run [].

End Execute.

Definition spawned (tr : list event) : bool :=
  existsb (fun ev => match ev with Spawned _ _ => true | _ => false end) tr.

End Executor.

(** ** Declarative notions used by the statements *)

Module Spec.
Import PyStr.

(** [needle] occurs in [hay] *)
Definition occurs (needle hay : string) : Prop :=
  exists pre post, hay = pre ++ needle ++ post.

(** [p] occurs in [name], letter case ignored *)
Definition occurs_ci (p name : string) : Prop :=
  occurs (lower p) (lower name).

(** [lit] occurs in [text] with a word boundary on each side, [prev] being
    the character before [text] *)
Definition occurs_between_boundaries (prev : option ascii) (lit text : string) : Prop :=
  exists pre post,
    text = pre ++ lit ++ post /\
    word_boundary (last_or prev pre) (head (lit ++ post)) = true /\
    word_boundary (last_or prev (pre ++ lit)) (head post) = true.

Definition occurs_as_word (lit text : string) : Prop :=
  occurs_between_boundaries None lit text.

Fixpoint all_space (s : string) : bool :=
  match s with
  | EmptyString => true
  | String c s' => is_space c && all_space s'
  end.

End Spec.

Module SafetySpec.
Import PyStr Settings Safety Spec.

Section Protection.

Variable settings : Settings.
Variable os : process_table.

(** [checked_name identifier name]: [name] is what the protected-name check
    is run on, namely the identifier itself when it is not a number (or a
    number that [psutil] rejects), and the name of the process otherwise. *)
Inductive checked_name (identifier : string) : string -> Prop :=
| checked_identifier :
    py_int identifier = None -> checked_name identifier identifier
| checked_resolved pid name :
    py_int identifier = Some pid ->
    ~ In pid (protected_pids (safety settings)) ->
    process_name os pid = Found name ->
    checked_name identifier name
| checked_rejected pid :
    py_int identifier = Some pid ->
    ~ In pid (protected_pids (safety settings)) ->
    process_name os pid = PidRejected ->
    checked_name identifier identifier.

(** The contract of [is_protected], case by case. *)
Inductive is_protected_spec (identifier : string) : bool * option string -> Prop :=
| protected_pid pid :
    py_int identifier = Some pid ->
    In pid (protected_pids (safety settings)) ->
    is_protected_spec identifier
      (true, Some ("PID " ++ of_Z pid ++ " is a protected system process"))
| missing_process pid :
    py_int identifier = Some pid ->
    ~ In pid (protected_pids (safety settings)) ->
    process_name os pid = NoSuchProcess \/ process_name os pid = AccessDenied ->
    is_protected_spec identifier (false, None)
| protected_name name before protected after :
    checked_name identifier name ->
    protected_processes (safety settings) = (before ++ protected :: after)%list ->
    (forall q, In q before -> ~ occurs_ci q name) ->
    occurs_ci protected name ->
    is_protected_spec identifier
      (true, Some ("'" ++ protected ++ "' is a protected system process"))
| unprotected_name name :
    checked_name identifier name ->
    (forall q, In q (protected_processes (safety settings)) -> ~ occurs_ci q name) ->
    is_protected_spec identifier (false, None).

End Protection.

(** The process table as an input: what is known of each PID. *)
Inductive table_entry : Type :=
| Running (name : string)
| NoProcess
| Inaccessible.

(** the answers of [psutil] on such a table *)
Definition table_of (entries : Z -> table_entry) : process_table :=
  {| process_name :=
       fun pid =>
         match entries pid with
         | Running name => Found name
         | NoProcess => NoSuchProcess
         | Inaccessible => AccessDenied
         end;
     process_details := fun _ => NoSuchProcess;
     process_iter := [] |}.

(** [subject settings entries identifier name]: [name] is the name the
    identifier stands for: that of the process when the identifier is an
    unprotected PID of a process in the table, the identifier itself when
    it is not an integer. *)
Definition subject (settings : Settings) (entries : Z -> table_entry)
    (identifier name : string) : Prop :=
  (py_int identifier = None /\ name = identifier)
  \/ (exists pid,
        py_int identifier = Some pid /\
        ~ In pid (protected_pids (safety settings)) /\
        entries pid = Running name).

(** The four cases of the protection check, over a table given as input. *)
Inductive is_protected_contract (settings : Settings)
    (entries : Z -> table_entry) (identifier : string)
  : bool * option string -> Prop :=
| contract_protected_pid pid :
    py_int identifier = Some pid ->
    In pid (protected_pids (safety settings)) ->
    is_protected_contract settings entries identifier
      (true, Some ("PID " ++ of_Z pid ++ " is a protected system process"))
| contract_no_process pid :
    py_int identifier = Some pid ->
    ~ In pid (protected_pids (safety settings)) ->
    entries pid = NoProcess \/ entries pid = Inaccessible ->
    is_protected_contract settings entries identifier (false, None)
| contract_protected_name name before protected after :
    subject settings entries identifier name ->
    protected_processes (safety settings) = (before ++ protected :: after)%list ->
    (forall q, In q before -> ~ occurs_ci q name) ->
    occurs_ci protected name ->
    is_protected_contract settings entries identifier
      (true, Some ("'" ++ protected ++ "' is a protected system process"))
| contract_unprotected name :
    subject settings entries identifier name ->
    (forall q, In q (protected_processes (safety settings)) -> ~ occurs_ci q name) ->
    is_protected_contract settings entries identifier (false, None).

(** [command] is a kill/stop variant: one of the four markers occurs in
    its lowercased text *)
Definition kill_stop_variant (command : string) : Prop :=
  exists marker, In marker kill_variants /\ occurs marker (lower command).

Definition kill_family : list string := ["kill"; "killall"; "pkill"].

Definition stop_actions : list string := ["stop"; "disable"; "mask"].

(** a process table with no process in it *)
Definition no_processes : process_table :=
  {| process_name := fun _ => NoSuchProcess;
     process_details := fun _ => NoSuchProcess;
     process_iter := [] |}.

(** the default policy with the kill family taken off the dangerous list *)
Definition without_kill : Settings :=
  {| execution := default_execution;
     safety :=
       {| require_confirmation := true;
          protected_processes := protected_processes default_safety;
          protected_pids := protected_pids default_safety;
          dangerous_commands :=
            ["rm"; "systemctl stop"; "systemctl disable"; "systemctl mask";
             "reboot"; "shutdown"; "poweroff"] |};
     logging := default_logging |}.

End SafetySpec.

Module ExecutorSpec.
Import PyStr Executor.

(** [resolves_to settings env cwd dir]: the call runs in [dir], which is
    the [cwd] passed to it, else the configured working directory when
    there is a non-empty one, else the current directory of the caller. *)
Inductive resolves_to (settings : Settings.Settings) (env : Env)
  : option string -> string -> Prop :=
| resolves_given dir :
    resolves_to settings env (Some dir) dir
| resolves_configured dir :
    Settings.working_directory (Settings.execution settings) = Some dir ->
    dir <> "" ->
    resolves_to settings env None dir
| resolves_current dir :
    Settings.working_directory (Settings.execution settings) = None \/
    Settings.working_directory (Settings.execution settings) = Some "" ->
    getcwd env = Ok dir ->
    resolves_to settings env None dir.

(** [captures env timeout out err]: the wait for the process, with the
    kill and the second read on a timeout, ends with the decoded pair
    [(out, err)]. *)
Inductive captures (env : Env) (timeout : Z) : string -> string -> Prop :=
| captures_finished out err code :
    communicate env timeout = Finished out err code ->
    captures env timeout out err
| captures_drained out err code :
    communicate env timeout = Expired ->
    (forall e, killpg env <> KillRaised e) ->
    communicate_again env = Drained out err code ->
    captures env timeout out err
| captures_nothing code :
    communicate env timeout = Expired ->
    (forall e, killpg env <> KillRaised e) ->
    communicate_again env = DrainExpired code ->
    captures env timeout "" "Command timed out and was terminated".


(** what [process.returncode] holds once a timed-out process was killed
    and read a second time *)
Definition code_after_kill (env : Env) : option Z :=
  match communicate_again env with
  | Drained _ _ code => Some code
  | DrainExpired code => code
  | DrainRaised _ => None
  end.

Fixpoint repeat_char (c : ascii) (n : nat) : string :=
  match n with
  | O => EmptyString
  | S n' => String c (repeat_char c n')
  end.

(** [sleep 5]: the process ends after five seconds with no output; killed
    by signal 9, it is reaped at once with return code -9. *)
Definition sleep_env : Env :=
  {| getcwd := Ok "/home/user";
     loop_time_start := 100%Q;
     loop_time_end := 101%Q;
     now_isoformat := "2024-01-01T00:00:00";
     create_subprocess_shell := fun _ _ => None;
     communicate := fun timeout => if timeout <? 5 then Expired else Finished "" "" 0;
     killpg := Killed;
     communicate_again := Drained "" "" (-9);
     append_history := None |}.

(** a command that writes 600 characters to stdout and 400 to stderr *)
Definition noisy_env : Env :=
  {| getcwd := Ok "/home/user";
     loop_time_start := 100%Q;
     loop_time_end := 101%Q;
     now_isoformat := "2024-01-01T00:00:00";
     create_subprocess_shell := fun _ _ => None;
     communicate :=
       fun _ => Finished (repeat_char "o" 600) (repeat_char "e" 400) 0;
     killpg := Killed;
     communicate_again := DrainExpired None;
     append_history := None |}.



(** the default settings with an output cap of 100 *)
Definition small_cap : Settings.Settings :=
  {| Settings.execution :=
       {| Settings.command_timeout := 30;
          Settings.max_output_size := 100;
          Settings.max_concurrent_commands := 3;
          Settings.working_directory := None |};
     Settings.safety := Settings.default_safety;
     Settings.logging := Settings.default_logging |}.

End ExecutorSpec.

(** ** The command line ([cli/main.py], [cli/output.py]) *)

Module Cli.
Import PyStr.

(** [lst[:k]] and [lst[j:]] for integers [k] and [j]: a negative index
    counts from the end. *)
Definition clamp_index (i : Z) (len : nat) : nat :=
  let n := Z.of_nat len in
  Z.to_nat (if i <? 0 then Z.max 0 (n + i) else Z.min i n).

Definition list_to {A} (k : Z) (l : list A) : list A :=
  firstn (clamp_index k (List.length l)) l.

Definition list_from {A} (j : Z) (l : list A) : list A :=
  skipn (clamp_index j (List.length l)) l.

(** [s.split("\n")]: the pieces between the line feeds, empty ones kept *)
Fixpoint split_lines (s : string) : list string :=
  match s with
  | EmptyString => [EmptyString]
  | String c s' =>
      if Ascii.eqb c "010"%char then EmptyString :: split_lines s'
      else
        match split_lines s' with
        | line :: rest => String c line :: rest
        | [] => [String c EmptyString]
        end
  end.

Definition join_lines (lines : list string) : string :=
  join (String "010"%char EmptyString) lines.

(** What the console is asked to show. *)
Inductive style : Type :=
| ErrorLine | InfoLine | WarningLine | CommandLine | PlainLine | OutputPanel.

Inductive shown : Type := Shown (st : style) (text : string).

(** [print_command_output]: the text put on the console *)
Definition print_command_output (output : string) (truncate : bool) (max_lines : Z)
  : shown :=
  if String.eqb (strip output) "" then Shown PlainLine "<no output>"
  else
    let lines := split_lines output in
    let n := Z.of_nat (List.length lines) in
    if truncate && (n >? max_lines) then
      let hidden := "(" ++ of_Z (n - max_lines) ++ " lines hidden)" in
      let shown_lines :=
        (list_to (max_lines / 2) lines
         ++ ["..."; hidden; "..."]
         ++ list_from ((- max_lines) / 2) lines)%list in
      Shown OutputPanel (join_lines shown_lines)
    else Shown OutputPanel output.

(** [confirm_action], [response] being the line the user types *)
Definition confirm_action (response : string) (default : bool) : bool :=
  let response := lower (strip response) in
  if String.eqb response "" then default
  else Safety.mem_string response ["y"; "yes"].

(** the rule-based branch of [process_query], from the safety check to the
    display of the output (lines 89-121); [response] is what the user types
    if asked to confirm *)
Definition run_rule_based (settings : Settings.Settings) (os : Safety.process_table)
    (env : Executor.Env) (response : string) (command : string) (dry_run : bool)
  : list shown * list Executor.event :=
  let '(requires_confirm, reason) := Safety.requires_confirmation settings os command in
  let asked :=
    if requires_confirm then
      [Shown WarningLine
         (match reason with
          | Some r => if String.eqb r "" then "This command requires confirmation" else r
          | None => "This command requires confirmation"
          end);
       Shown CommandLine command]
    else [] in
  if requires_confirm && negb (confirm_action response false) then
    ((asked ++ [Shown InfoLine "Command execution cancelled"])%list, [])
  else
    let announced := (asked ++ [Shown CommandLine command])%list in
    if dry_run then
      ((announced ++ [Shown InfoLine "[DRY RUN] Command would be executed"])%list, [])
    else
      match Executor.run_execute settings env command None None false with
      | (Executor.Ok cmd_result, tr) =>
          let display :=
            if Executor.success cmd_result then
              (print_command_output (Executor.stdout cmd_result) true 50
               :: (if String.eqb (Executor.stderr cmd_result) "" then []
                   else [Shown WarningLine "Errors/Warnings:";
                         print_command_output (Executor.stderr cmd_result) true 50]))
            else
              [Shown ErrorLine "Command failed";
               print_command_output (Executor.stderr cmd_result) true 50] in
          ((announced ++ display)%list, tr)
      | (Executor.Raise e, tr) =>
          ((announced
            ++ [Shown ErrorLine ("Failed to process query: " ++ Executor.str_of_exn e)])%list,
           tr)
      end.

(** *** Routing of the arguments ([cli], lines 272-322) *)

Inductive route : Type :=
| TyperApp
| ProcessQuery (query_text : string) (lite force_llm dry_run : bool).

Definition known_commands : list string :=
  ["init"; "config"; "plugins"; "capabilities"].

Definition option_flags : list string :=
  ["--lite"; "--force-llm"; "--dry-run"; "--verbose"; "-v"].

Fixpoint first_non_option (args : list string) : option string :=
  match args with
  | [] => None
  | arg :: rest =>
      if starts_with "-" arg then first_non_option rest else Some arg
  end.

Definition query_args (args : list string) : list string :=
  filter (fun arg => negb (Safety.mem_string arg option_flags)) args.

(** [cli], on [sys.argv[1:]]: whether the log level is set to DEBUG, and
    where the arguments go *)
Definition cli (args : list string) : bool * route :=
  match args with
  | [] => (false, TyperApp)
  | first :: _ =>
      if Safety.mem_string first ["--help"; "-h"] then (false, TyperApp)
      else
        let is_subcommand :=
          match first_non_option args with
          | Some first_arg => Safety.mem_string first_arg known_commands
          | None => false
          end in
        if is_subcommand then (false, TyperApp)
        else
          let lite := Safety.mem_string "--lite" args in
          let force_llm := Safety.mem_string "--force-llm" args in
          let dry_run := Safety.mem_string "--dry-run" args in
          let verbose :=
            Safety.mem_string "--verbose" args || Safety.mem_string "-v" args in
          match query_args args with
          | [] => (verbose, TyperApp)
          | qs => (verbose, ProcessQuery (join " " qs) lite force_llm dry_run)
          end
  end.

End Cli.

(** ** The system plugin ([plugins/system.py]) *)

Module SystemPlugin.
Import PyStr Executor.

(** the values of the dictionaries the tools return *)
Inductive value : Type :=
| VBool (b : bool)
| VStr (s : string).

Definition dict : Type := list (string * value).

Section Tools.

Variable settings : Settings.Settings.

(** the environment that each command meets when it is run *)
Variable machine : string -> Env.

(** [CommandExecutor.execute_sync], with the defaults the plugin uses:
    [asyncio.run] of one call of [execute], made from plain synchronous
    code, where no event loop is running *)
Definition execute_sync (command : string) : M CommandResult :=
  fun tr =>
    let '(res, tr') := run_execute settings (machine command) command None None false in
    (res, (tr ++ tr')%list).

Definition get_system_info : M dict :=
  uname_result <- execute_sync "uname -a" ;;
  uptime_result <- execute_sync "uptime" ;;
  ret [("success", VBool (success uname_result && success uptime_result));
       ("system", VStr (if success uname_result
                        then strip (stdout uname_result) else "Unknown"));
       ("uptime", VStr (if success uptime_result
                        then strip (stdout uptime_result) else "Unknown"))].

Definition report_output (result : CommandResult) : dict :=
  if negb (success result)
  then [("success", VBool false); ("error", VStr (stderr result))]
  else [("success", VBool true);
        ("output", VStr (stdout result));
        ("raw_output", VStr (stdout result))].

Definition check_disk_space : M dict :=
  result <- execute_sync "df -h" ;;
  ret (report_output result).

Definition check_memory : M dict :=
  result <- execute_sync "free -h" ;;
  ret (report_output result).

Definition get_uptime : M dict :=
  result <- execute_sync "uptime" ;;
  ret (if negb (success result)
       then [("success", VBool false); ("error", VStr (stderr result))]
       else [("success", VBool true); ("uptime", VStr (strip (stdout result)))]).

Definition get_os_info : M dict :=
  result <- execute_sync "cat /etc/os-release" ;;
  result <- (if negb (success result)
             then execute_sync "lsb_release -a"
             else ret result) ;;
  ret (if negb (success result)
       then [("success", VBool false);
             ("error", VStr "Could not determine OS information")]
       else [("success", VBool true); ("output", VStr (stdout result))]).

End Tools.

(** [d[key]], [None] for a missing key *)
Fixpoint lookup (key : string) (d : dict) : option value :=
  match d with
  | [] => None
  | (k, v) :: rest => if String.eqb k key then Some v else lookup key rest
  end.

End SystemPlugin.

(** ** Notions used by the further statements *)

Module ExtraSpec.
Import PyStr Executor.

(** [s] is empty or begins with whitespace *)
Definition ends_token (s : string) : bool :=
  match s with
  | EmptyString => true
  | String c _ => is_space c
  end.

Fixpoint no_line_feed (s : string) : bool :=
  match s with
  | EmptyString => true
  | String c s' => negb (Ascii.eqb c "010"%char) && no_line_feed s'
  end.


Definition is_spawn (ev : event) : bool :=
  match ev with Spawned _ _ => true | _ => false end.

(** the same environment, with another fate for the history write *)
Definition with_append_history (env : Env) (fate : option exn) : Env :=
  {| getcwd := getcwd env;
     loop_time_start := loop_time_start env;
     loop_time_end := loop_time_end env;
     now_isoformat := now_isoformat env;
     create_subprocess_shell := create_subprocess_shell env;
     communicate := communicate env;
     killpg := killpg env;
     communicate_again := communicate_again env;
     append_history := fate |}.

(** the same settings, with another logging section *)
Definition with_logging (settings : Settings.Settings)
    (logging : Settings.LoggingConfig) : Settings.Settings :=
  {| Settings.execution := Settings.execution settings;
     Settings.safety := Settings.safety settings;
     Settings.logging := logging |}.

(** the same settings, with another safety section *)
Definition with_safety (settings : Settings.Settings)
    (safety : Settings.SafetyConfig) : Settings.Settings :=
  {| Settings.execution := Settings.execution settings;
     Settings.safety := safety;
     Settings.logging := Settings.logging settings |}.

(** a negative output cap *)
Definition negative_cap : Settings.Settings :=
  {| Settings.execution :=
       {| Settings.command_timeout := 30;
          Settings.max_output_size := -1;
          Settings.max_concurrent_commands := 3;
          Settings.working_directory := None |};
     Settings.safety := Settings.default_safety;
     Settings.logging := Settings.default_logging |}.

(** a command that ends at once, with the given output and return code *)
Definition quick_env (out err : string) (code : Z) : Env :=
  {| getcwd := Ok "/home/user";
     loop_time_start := 100%Q;
     loop_time_end := 101%Q;
     now_isoformat := "2024-01-01T00:00:00";
     create_subprocess_shell := fun _ _ => None;
     communicate := fun _ => Finished out err code;
     killpg := Killed;
     communicate_again := DrainExpired None;
     append_history := None |}.

(** a policy whose dangerous entries are written in capitals *)
Definition capital_entries : Settings.Settings :=
  with_safety Settings.default
    {| Settings.require_confirmation := true;
       Settings.protected_processes := ["systemd"];
       Settings.protected_pids := [1];
       Settings.dangerous_commands := ["RM"; "Kill"] |}.

(** a policy with an empty protected name *)
Definition empty_protected_name : Settings.Settings :=
  with_safety Settings.default
    {| Settings.require_confirmation := true;
       Settings.protected_processes := ["systemd"; ""];
       Settings.protected_pids := [1];
       Settings.dangerous_commands := ["kill"] |}.

(** a process table with a browser, its helper and a shell *)
Definition browsing_table : Safety.process_table :=
  {| Safety.process_name := fun _ => Safety.NoSuchProcess;
     Safety.process_details := fun _ => Safety.NoSuchProcess;
     Safety.process_iter :=
       [ {| Safety.pe_pid := 4242;
            Safety.pe_name := "firefox";
            Safety.pe_cmdline := Some ["firefox"; "--new-tab"] |};
         {| Safety.pe_pid := 77;
            Safety.pe_name := "bash";
            Safety.pe_cmdline := None |};
         {| Safety.pe_pid := 4250;
            Safety.pe_name := "Firefox-bin";
            Safety.pe_cmdline := Some [] |} ] |}.

(** a machine without [/etc/os-release] but with [lsb_release] *)
Definition lsb_machine (command : string) : Env :=
  if String.eqb command "cat /etc/os-release"
  then quick_env "" "cat: /etc/os-release: No such file or directory" 1
  else quick_env "Distributor ID: Fedora" "" 0.

(** a dictionary reports a success, or a failure with an error message *)
Definition reports_outcome (d : SystemPlugin.dict) : Prop :=
  (SystemPlugin.lookup "success" d = Some (SystemPlugin.VBool true) /\
   SystemPlugin.lookup "error" d = None)
  \/ (SystemPlugin.lookup "success" d = Some (SystemPlugin.VBool false) /\
      exists message,
        SystemPlugin.lookup "error" d = Some (SystemPlugin.VStr message)).

(** a machine on which nothing can be spawned *)
Definition broken_machine (command : string) : Env :=
  {| getcwd := Ok "/home/user";
     loop_time_start := 100%Q;
     loop_time_end := 101%Q;
     now_isoformat := "2024-01-01T00:00:00";
     create_subprocess_shell :=
       fun _ _ => Some (PyException "[Errno 13] Permission denied: '/bin/sh'");
     communicate := fun _ => Finished "" "" 0;
     killpg := Killed;
     communicate_again := DrainExpired None;
     append_history := None |}.

End ExtraSpec.

(** ** Facts about the string primitives *)

Module PyStrFacts.
Import PyStr Spec.

Lemma append_nil_r (s : string) : s ++ "" = s.
Proof. induction s as [|c s IH]; simpl; [reflexivity | now rewrite IH]. Qed.

Lemma append_assoc (a b c : string) : (a ++ b) ++ c = a ++ b ++ c.
Proof. induction a as [|x a IH]; simpl; [reflexivity | now rewrite IH]. Qed.

Lemma length_append (a b : string) :
  String.length (a ++ b) = (String.length a + String.length b)%nat.
Proof. induction a as [|x a IH]; simpl; [reflexivity | now rewrite IH]. Qed.

Lemma strip_prefix_spec (p s r : string) :
  strip_prefix p s = Some r <-> s = p ++ r.
Proof.
  revert s; induction p as [|a p IH]; intros s; simpl.
  - split; [now intros [= ->] | now intros ->].
  - destruct s as [|b s]; [split; discriminate|].
    destruct (Ascii.eqb_spec a b) as [->|Hne].
    + rewrite IH. split; [now intros -> | now intros [= ->]].
    + split; [discriminate | intros [= Hab _]; congruence].
Qed.

Lemma starts_with_spec (p s : string) :
  starts_with p s = true <-> exists r, s = p ++ r.
Proof.
  unfold starts_with. destruct (strip_prefix p s) as [r|] eqn:E.
  - apply strip_prefix_spec in E. split; [eauto | reflexivity].
  - split; [discriminate|]. intros [r Hr].
    apply strip_prefix_spec in Hr. congruence.
Qed.

(** [contains] decides [occurs]. *)
Lemma contains_spec (needle hay : string) :
  contains needle hay = true <-> occurs needle hay.
Proof.
  induction hay as [|c hay IH]; simpl.
  - rewrite orb_false_r, starts_with_spec. split.
    + intros [r Hr]. now exists "", r.
    + intros [pre [post H]]. destruct pre; [now exists post | discriminate].
  - rewrite orb_true_iff, starts_with_spec, IH. split.
    + intros [[r Hr] | [pre [post H]]].
      * now exists "", r.
      * exists (String c pre), post. simpl. now rewrite H.
    + intros [pre [post H]]. destruct pre as [|x pre]; simpl in H.
      * left. now exists post.
      * right. injection H as _ H. now exists pre, post.
Qed.

Lemma last_or_append (d : option ascii) (a b : string) :
  last_or d (a ++ b) = last_or (last_or d a) b.
Proof. revert d; induction a as [|x a IH]; intros d; simpl; auto. Qed.

Lemma head_append (a b : string) :
  head (a ++ b) = match a with EmptyString => head b | String c _ => Some c end.
Proof. destruct a; reflexivity. Qed.

Lemma match_here_spec (prev : option ascii) (lit text : string) :
  match_here prev lit text = true <->
  exists post, text = lit ++ post /\
               word_boundary prev (head (lit ++ post)) = true /\
               word_boundary (last_or prev lit) (head post) = true.
Proof.
  unfold match_here, end_boundary. rewrite andb_true_iff.
  destruct (strip_prefix lit text) as [rest|] eqn:E.
  - apply strip_prefix_spec in E. subst text. split.
    + intros [H1 H2]. now exists rest.
    + intros [post [H [H1 H2]]].
      assert (strip_prefix lit (lit ++ rest) = Some post) as Hp
        by now apply strip_prefix_spec.
      assert (strip_prefix lit (lit ++ rest) = Some rest) as Hr
        by now apply strip_prefix_spec.
      rewrite Hr in Hp. injection Hp as ->. auto.
  - split; [intros [_ H]; discriminate|].
    intros [post [H _]]. apply strip_prefix_spec in H. congruence.
Qed.

(** [search_from] decides the occurrence between word boundaries. *)
Lemma search_from_spec (lit text : string) (prev : option ascii) :
  search_from prev lit text = true <-> occurs_between_boundaries prev lit text.
Proof.
  unfold occurs_between_boundaries.
  revert prev; induction text as [|c text IH]; intros prev; simpl.
  - rewrite orb_false_r, match_here_spec. split.
    + intros [post [H [H1 H2]]]. exists "", post. simpl. auto.
    + intros [pre [post [H [H1 H2]]]].
      destruct pre; [|discriminate]. simpl in *. now exists post.
  - rewrite orb_true_iff, match_here_spec, IH. split.
    + intros [[post [H [H1 H2]]] | [pre [post [H [H1 H2]]]]].
      * exists "", post. simpl. auto.
      * exists (String c pre), post. simpl. rewrite H. auto.
    + intros [pre [post [H [H1 H2]]]]. destruct pre as [|x pre]; simpl in *.
      * left. now exists post.
      * right. injection H as -> H. now exists pre, post.
Qed.

Lemma re_search_word_spec (lit text : string) :
  re_search_word lit text = true <-> occurs_as_word lit text.
Proof. apply search_from_spec. Qed.

(** *** Surrounding whitespace does not change a word search *)

Lemma space_not_word (c : ascii) : is_space c = true -> is_word c = false.
Proof.
  destruct c as [[] [] [] [] [] [] [] []]; vm_compute; intros H;
    first [reflexivity | discriminate H].
Qed.

Lemma head_space_not_word (w : string) :
  all_space w = true -> is_word_opt (head w) = false.
Proof.
  destruct w as [|c w]; simpl; [reflexivity|].
  intros H. apply andb_true_iff in H. now apply space_not_word.
Qed.

Lemma is_word_last_or (p q : option ascii) (lit : string) :
  is_word_opt p = is_word_opt q ->
  is_word_opt (last_or p lit) = is_word_opt (last_or q lit).
Proof. destruct lit; simpl; auto. Qed.

Lemma end_boundary_prev (p q : option ascii) (lit text : string) :
  is_word_opt p = is_word_opt q ->
  end_boundary p lit text = end_boundary q lit text.
Proof.
  intros H. unfold end_boundary, word_boundary.
  now rewrite (is_word_last_or p q lit H).
Qed.

Lemma match_here_prev (p q : option ascii) (lit text : string) :
  is_word_opt p = is_word_opt q ->
  match_here p lit text = match_here q lit text.
Proof.
  intros H. unfold match_here, word_boundary.
  now rewrite H, (end_boundary_prev p q lit text H).
Qed.

Lemma search_from_prev (p q : option ascii) (lit text : string) :
  is_word_opt p = is_word_opt q ->
  search_from p lit text = search_from q lit text.
Proof.
  intros H. destruct text; simpl; now rewrite (match_here_prev p q).
Qed.

Lemma search_from_lstrip (lit s : string) :
  search_from None lit (lstrip s) = search_from None lit s.
Proof.
  induction s as [|c s IH]; [reflexivity|].
  cbn [lstrip]. destruct (is_space c) eqn:E; [|reflexivity].
  rewrite IH. cbn [search_from]. unfold match_here at 1, word_boundary.
  cbn [head is_word_opt]. rewrite (space_not_word c E). cbn [xorb andb orb].
  apply search_from_prev. cbn. now rewrite (space_not_word c E).
Qed.

Lemma rstrip_decompose (s : string) :
  exists w, s = rstrip s ++ w /\ all_space w = true.
Proof.
  induction s as [|c s [w [Hw Hs]]]; [now exists ""|].
  cbn [rstrip]. destruct (rstrip s) as [|r0 r] eqn:E.
  - simpl in Hw. subst w. destruct (is_space c) eqn:Ec.
    + exists (String c s). simpl. now rewrite Ec, Hs.
    + now exists s.
  - exists w. simpl. split; [now rewrite Hw at 1 | assumption].
Qed.

Lemma end_boundary_in_space (lit w : string) (p : option ascii) :
  is_word_opt p = false -> all_space w = true -> end_boundary p lit w = false.
Proof.
  revert p w; induction lit as [|a lit IH]; intros p w Hp Hw.
  - unfold end_boundary, word_boundary. simpl.
    now rewrite Hp, (head_space_not_word w Hw).
  - destruct w as [|b w]; [reflexivity|].
    simpl in Hw. apply andb_true_iff in Hw as [Hb Hw].
    unfold end_boundary. simpl.
    destruct (Ascii.eqb_spec a b) as [->|]; [|reflexivity].
    apply (IH (Some b) w); [simpl; now apply space_not_word | assumption].
Qed.

Lemma end_boundary_append_space (lit t w : string) (p : option ascii) :
  all_space w = true -> end_boundary p lit (t ++ w) = end_boundary p lit t.
Proof.
  intros Hw. revert p t; induction lit as [|a lit IH]; intros p t.
  - unfold end_boundary, word_boundary. simpl. f_equal.
    rewrite head_append. destruct t; [now apply head_space_not_word | reflexivity].
  - destruct t as [|b t].
    + simpl. destruct w as [|b w]; [reflexivity|].
      simpl in Hw. apply andb_true_iff in Hw as [Hb Hw].
      unfold end_boundary. simpl.
      destruct (Ascii.eqb_spec a b) as [->|]; [|reflexivity].
      apply (end_boundary_in_space lit w (Some b));
        [simpl; now apply space_not_word | assumption].
    + unfold end_boundary. simpl.
      destruct (Ascii.eqb_spec a b) as [->|]; [|reflexivity].
      apply (IH (Some b) t).
Qed.

Lemma match_here_append_space (lit t w : string) (p : option ascii) :
  all_space w = true -> match_here p lit (t ++ w) = match_here p lit t.
Proof.
  intros Hw. unfold match_here.
  rewrite (end_boundary_append_space lit t w p Hw). f_equal.
  unfold word_boundary. f_equal. rewrite head_append.
  destruct t; [now apply head_space_not_word | reflexivity].
Qed.

Lemma search_from_in_space (lit w : string) (p : option ascii) :
  is_word_opt p = false -> all_space w = true -> search_from p lit w = false.
Proof.
  revert p; induction w as [|c w IH]; intros p Hp Hw; simpl.
  - unfold match_here, word_boundary. simpl. now rewrite Hp.
  - simpl in Hw. apply andb_true_iff in Hw as [Hc Hw].
    unfold match_here, word_boundary. simpl.
    rewrite Hp, (space_not_word c Hc). simpl.
    apply IH; [simpl; now apply space_not_word | assumption].
Qed.

Lemma search_from_append_space (lit t w : string) (p : option ascii) :
  all_space w = true -> search_from p lit (t ++ w) = search_from p lit t.
Proof.
  intros Hw. revert p; induction t as [|c t IH]; intros p.
  - simpl. destruct w as [|b w]; [reflexivity|].
    cbn [search_from]. rewrite orb_false_r.
    change (String b w) with ("" ++ String b w) at 1.
    rewrite (match_here_append_space lit "" (String b w) p Hw).
    simpl in Hw. apply andb_true_iff in Hw as [Hb Hw].
    rewrite (search_from_in_space lit w (Some b));
      [apply orb_false_r | simpl; now apply space_not_word | assumption].
  - change (String c t ++ w) with (String c (t ++ w)). cbn [search_from].
    rewrite IH. f_equal.
    change (String c (t ++ w)) with (String c t ++ w).
    now apply match_here_append_space.
Qed.

Lemma re_search_word_strip (lit s : string) :
  re_search_word lit (strip s) = re_search_word lit s.
Proof.
  unfold re_search_word, strip.
  rewrite <- (search_from_lstrip lit s).
  destruct (rstrip_decompose (lstrip s)) as [w [Hw Hs]].
  rewrite Hw at 2. symmetry. now apply search_from_append_space.
Qed.

(** *** The primitives on a few inputs *)

Example split_runs : split "  kill  -9   1234 " = ["kill"; "-9"; "1234"].
Proof. reflexivity. Qed.

Example py_int_grouped : py_int " +1_000 " = Some 1000 /\ py_int "1__0" = None.
Proof. split; reflexivity. Qed.

Example py_int_not_numbers :
  py_int "" = None /\ py_int "-" = None /\ py_int "12a" = None /\ py_int "-07" = Some (-7).
Proof. repeat split; reflexivity. Qed.

Example of_Z_decimal : of_Z 0 = "0" /\ of_Z (-15) = "-15" /\ of_Z 120 = "120".
Proof. repeat split; reflexivity. Qed.

Example word_search_rm :
  re_search_word "rm" "rm -rf /" = true /\ re_search_word "rm" "form x" = false.
Proof. split; reflexivity. Qed.

Example replace_all_occurrences :
  replace ".service" "" "a.service.servicex.serv" = "ax.serv".
Proof. reflexivity. Qed.

Example slice_to_bounds :
  slice_to (-2) "abcde" = "abc" /\ slice_to 2 "abcde" = "ab" /\
  slice_to 9 "abcde" = "abcde" /\ slice_to (-9) "abcde" = "".
Proof. repeat split; reflexivity. Qed.

Example strip_and_lower : strip "  a b  " = "a b" /\ lower "KiLL 1" = "kill 1".
Proof. split; reflexivity. Qed.

End PyStrFacts.

(** ** The safety validator meets its contract *)

Module SafetyFacts.
Import PyStr Settings Safety Spec SafetySpec PyStrFacts.

Lemma contains_false_iff (needle hay : string) :
  contains needle hay = false <-> ~ occurs needle hay.
Proof.
  rewrite <- contains_spec. destruct (contains needle hay); split; congruence.
Qed.

Lemma pid_in_spec (pid : Z) (pids : list Z) : pid_in pid pids = true <-> In pid pids.
Proof.
  unfold pid_in. rewrite existsb_exists. split.
  - intros [x [Hx He]]. apply Z.eqb_eq in He. now subst.
  - intros H. exists pid. split; [assumption | apply Z.eqb_refl].
Qed.

Lemma mem_string_spec (x : string) (l : list string) :
  mem_string x l = true <-> In x l.
Proof.
  unfold mem_string. rewrite existsb_exists. split.
  - intros [y [Hy He]]. apply String.eqb_eq in He. now subst.
  - intros H. exists x. split; [assumption | apply String.eqb_refl].
Qed.

Lemma first_dangerous_found (entries : list string) (text : string) :
  first_dangerous entries text <> None <->
  exists entry, In entry entries /\ re_search_word entry text = true.
Proof.
  induction entries as [|d entries IH]; simpl.
  - split; [congruence | intros [e [[] _]]].
  - destruct (re_search_word d text) eqn:E.
    + split; [intros _; exists d; auto | congruence].
    + rewrite IH. split.
      * intros [e [He Hs]]. exists e; auto.
      * intros [e [[->|He] Hs]]; [congruence | exists e; auto].
Qed.

(** The loop over the protected names stops at the first name that occurs. *)
Lemma check_protected_names_first (names : list string) (name : string) :
  (exists before protected after,
      names = (before ++ protected :: after)%list /\
      (forall q, In q before -> ~ occurs_ci q name) /\
      occurs_ci protected name /\
      check_protected_names names (lower name) =
        (true, Some ("'" ++ protected ++ "' is a protected system process")))
  \/ ((forall q, In q names -> ~ occurs_ci q name) /\
      check_protected_names names (lower name) = (false, None)).
Proof.
  induction names as [|p names IH]; simpl.
  - right. split; [intros q [] | reflexivity].
  - destruct (contains (lower p) (lower name)) eqn:E.
    + left. exists [], p, names. repeat split.
      * intros q [].
      * now apply contains_spec.
    + apply contains_false_iff in E.
      destruct IH as [[before [q [after [Hn [Hb [Hq Hc]]]]]] | [Hall Hc]].
      * left. exists (p :: before), q, after. repeat split; auto.
        -- simpl. now rewrite Hn.
        -- intros r [<-|Hr]; auto.
      * right. split; [intros r [<-|Hr]; auto | assumption].
Qed.

Lemma check_process_name_meets_spec settings os identifier name :
  checked_name settings os identifier name ->
  is_protected_spec settings os identifier (check_process_name settings name).
Proof.
  intros Hn. unfold check_process_name.
  destruct (check_protected_names_first (protected_processes (safety settings)) name)
    as [[before [p [after [Hl [Hb [Hp Hc]]]]]] | [Hall Hc]]; rewrite Hc.
  - eapply protected_name; eauto.
  - eapply unprotected_name; eauto.
Qed.

Lemma check_protected_names_reason (names : list string) (name_lower : string) reason :
  check_protected_names names name_lower = (true, reason) ->
  exists message, reason = Some message.
Proof.
  induction names as [|p names IH]; simpl; [discriminate|].
  destruct (contains (lower p) name_lower); [intros [= <-]; eauto | exact IH].
Qed.

Lemma is_protected_process_reason settings os identifier reason :
  is_protected_process settings os identifier = (true, reason) ->
  exists message, reason = Some message.
Proof.
  unfold is_protected_process, check_process_name.
  destruct (py_int identifier) as [pid|];
    [|now apply check_protected_names_reason].
  destruct (pid_in pid _); [intros [= <-]; eauto|].
  destruct (process_name os pid);
    try discriminate; now apply check_protected_names_reason.
Qed.

(** The name that is checked is determined by the identifier. *)
Lemma checked_name_functional settings os identifier n1 n2 :
  checked_name settings os identifier n1 ->
  checked_name settings os identifier n2 ->
  n1 = n2.
Proof.
  intros H1 H2. destruct H1; destruct H2; congruence.
Qed.

(** The first protected name that occurs is determined by the list. *)
Lemma first_occurrence_unique (name : string) (b1 b2 : list string) p1 p2 a1 a2 :
  (b1 ++ p1 :: a1 = b2 ++ p2 :: a2)%list ->
  (forall q, In q b1 -> ~ occurs_ci q name) ->
  (forall q, In q b2 -> ~ occurs_ci q name) ->
  occurs_ci p1 name -> occurs_ci p2 name ->
  p1 = p2.
Proof.
  revert b2; induction b1 as [|x b1 IH]; intros [|y b2] Heq H1 H2 Hp1 Hp2;
    simpl in Heq; injection Heq as Hhd Htl.
  - assumption.
  - subst y. exfalso. apply (H2 p1); [now left | assumption].
  - subst x. exfalso. apply (H1 p2); [now left | assumption].
  - apply (IH b2 Htl); auto.
    + intros q Hq. apply H1. now right.
    + intros q Hq. apply H2. now right.
Qed.

Lemma checked_name_not_protected_pid settings os identifier name pid :
  checked_name settings os identifier name ->
  py_int identifier = Some pid ->
  In pid (protected_pids (safety settings)) ->
  False.
Proof.
  intros Hn Hi Hin.
  destruct Hn as [Hnone | pid' n Hi' Hout _ | pid' Hi' Hout _];
    [congruence | |];
    (assert (pid' = pid) by congruence); subst pid'; contradiction.
Qed.

Lemma checked_name_not_missing settings os identifier name pid :
  checked_name settings os identifier name ->
  py_int identifier = Some pid ->
  process_name os pid = NoSuchProcess \/ process_name os pid = AccessDenied ->
  False.
Proof.
  intros Hn Hi Hmiss.
  destruct Hn as [Hnone | pid' n Hi' _ Hp | pid' Hi' _ Hp];
    [congruence | |];
    (assert (pid' = pid) by congruence); subst pid';
    destruct Hmiss; congruence.
Qed.

(** The contract leaves one answer only. *)
Lemma is_protected_spec_functional settings os identifier r1 r2 :
  is_protected_spec settings os identifier r1 ->
  is_protected_spec settings os identifier r2 ->
  r1 = r2.
Proof.
  intros H1 H2.
  destruct H1 as [pid Hi Hin | pid Hi Hout Hp | n b p a Hn Hl Hb Hp | n Hn Hall];
    destruct H2 as [pid' Hi' Hin' | pid' Hi' Hout' Hp' | n' b' p' a' Hn' Hl' Hb' Hp'
                   | n' Hn' Hall'];
    try reflexivity;
    try (exfalso; eapply checked_name_not_protected_pid; eassumption);
    try (exfalso; eapply checked_name_not_missing; eassumption).
  - assert (pid = pid') by congruence. now subst pid'.
  - assert (pid = pid') by congruence. subst pid'. contradiction.
  - assert (pid = pid') by congruence. subst pid'. contradiction.
  - assert (n = n') by (eapply checked_name_functional; eauto). subst n'.
    rewrite Hl in Hl'.
    now rewrite (first_occurrence_unique n b b' p p' a a' Hl' Hb Hb' Hp Hp').
  - assert (n = n') by (eapply checked_name_functional; eauto). subst n'.
    exfalso. apply (Hall' p); [rewrite Hl; apply in_elt | assumption].
  - assert (n = n') by (eapply checked_name_functional; eauto). subst n'.
    exfalso. apply (Hall p'); [rewrite Hl'; apply in_elt | assumption].
Qed.

(** Whatever [psutil] answers, a PID that it refuses included,
    [is_protected_process] follows the cases of [is_protected_spec]. *)
Lemma is_protected_process_meets_spec settings os identifier :
  is_protected_spec settings os identifier
    (is_protected_process settings os identifier).
Proof.
  unfold is_protected_process.
  destruct (py_int identifier) as [pid|] eqn:Hint.
  - destruct (pid_in pid (protected_pids (safety settings))) eqn:Hpid.
    + apply pid_in_spec in Hpid. now apply protected_pid.
    + assert (~ In pid (protected_pids (safety settings))) as Hout
        by (rewrite <- pid_in_spec; congruence).
      destruct (process_name os pid) as [name| | |] eqn:Hproc.
      * apply check_process_name_meets_spec. eapply checked_resolved; eauto.
      * eapply missing_process; eauto.
      * eapply missing_process; eauto.
      * apply check_process_name_meets_spec. eapply checked_rejected; eauto.
  - apply check_process_name_meets_spec. now apply checked_identifier.
Qed.



Lemma subject_functional settings entries identifier n1 n2 :
  subject settings entries identifier n1 ->
  subject settings entries identifier n2 ->
  n1 = n2.
Proof.
  intros [[H1 ->] | [p1 [H1 [_ E1]]]] [[H2 ->] | [p2 [H2 [_ E2]]]];
    congruence.
Qed.

Lemma subject_unprotected_pid settings entries identifier name pid :
  subject settings entries identifier name ->
  py_int identifier = Some pid ->
  ~ In pid (protected_pids (safety settings)) /\ entries pid = Running name.
Proof.
  intros [[H1 _] | [p [H1 [Hout He]]]] Hi; [congruence|].
  assert (p = pid) by congruence. subst p. auto.
Qed.

(** The four cases leave one answer only. *)
Lemma is_protected_contract_functional settings entries identifier r1 r2 :
  is_protected_contract settings entries identifier r1 ->
  is_protected_contract settings entries identifier r2 ->
  r1 = r2.
Proof.
  intros H1 H2.
  destruct H1 as [pid Hi Hin | pid Hi Hout Hp | n b p a Hn Hl Hb Hp | n Hn Hall];
    destruct H2 as [pid' Hi' Hin' | pid' Hi' Hout' Hp' | n' b' p' a' Hn' Hl' Hb' Hp'
                   | n' Hn' Hall'];
    try reflexivity;
    try (exfalso;
         match goal with
         | Hs : subject _ _ _ _, Hint : py_int _ = Some _ |- _ =>
             destruct (subject_unprotected_pid _ _ _ _ _ Hs Hint) as [? ?]
         end;
         solve [contradiction
               | match goal with H : _ \/ _ |- _ => destruct H; congruence end]).
  - assert (pid = pid') by congruence. now subst pid'.
  - assert (pid = pid') by congruence. subst pid'. contradiction.
  - assert (pid = pid') by congruence. subst pid'. contradiction.
  - assert (n = n') by (eapply subject_functional; eauto). subst n'.
    rewrite Hl in Hl'.
    now rewrite (first_occurrence_unique n b b' p p' a a' Hl' Hb Hb' Hp Hp').
  - assert (n = n') by (eapply subject_functional; eauto). subst n'.
    exfalso. apply (Hall' p); [rewrite Hl; apply in_elt | assumption].
  - assert (n = n') by (eapply subject_functional; eauto). subst n'.
    exfalso. apply (Hall p'); [rewrite Hl'; apply in_elt | assumption].
Qed.

(** [int] does not skip the separator 28, and refuses 4301 digits: those
    identifiers are names, and match no protected name. *)
Example is_protected_separator :
  py_int (String "028"%char "1") = None /\
  is_protected_process default (table_of (fun _ => NoProcess))
    (String "028"%char "1") = (false, None).
Proof. split; reflexivity. Qed.

Example is_protected_long_literal :
  py_int (ExecutorSpec.repeat_char "0" 4300 ++ "1") = None /\
  py_int (ExecutorSpec.repeat_char "0" 4299 ++ "1") = Some 1 /\
  is_protected_process default (table_of (fun _ => NoProcess))
    (ExecutorSpec.repeat_char "0" 4300 ++ "1") = (false, None).
Proof. vm_compute. auto. Qed.

Example is_protected_pid_1 :
  is_protected_process default no_processes "1"
  = (true, Some "PID 1 is a protected system process").
Proof. reflexivity. Qed.

Example is_protected_missing_pid :
  is_protected_process default no_processes "99999999" = (false, None).
Proof. reflexivity. Qed.

Example is_protected_systemd :
  is_protected_process default no_processes "systemd"
  = (true, Some "'systemd' is a protected system process").
Proof. reflexivity. Qed.

(** C7. [is_dangerous_command] depends on the policy and the command only,
    and answers true exactly when some entry of the dangerous-command list
    occurs in the lowercased command between word boundaries; under the
    default policy "rm -rf /" and "systemctl stop nginx" are dangerous,
    "ls -la" and "systemctl status nginx" are not. *)
Theorem is_dangerous_command_whole_word :
  (forall settings command,
      is_dangerous_command settings command = true <->
      exists entry,
        In entry (dangerous_commands (safety settings)) /\
        occurs_as_word entry (lower command))
  /\ is_dangerous_command default "rm -rf /" = true
  /\ is_dangerous_command default "ls -la" = false
  /\ is_dangerous_command default "systemctl status nginx" = false
  /\ is_dangerous_command default "systemctl stop nginx" = true.
Proof.
  split; [|repeat split; reflexivity].
  intros settings command. unfold is_dangerous_command.
  pose proof (first_dangerous_found (dangerous_commands (safety settings))
                (strip (lower command))) as Hf.
  assert (forall entry,
             re_search_word entry (strip (lower command)) = true <->
             occurs_as_word entry (lower command)) as Hs.
  { intros entry. rewrite re_search_word_strip. apply re_search_word_spec. }
  destruct (first_dangerous _ _) as [d|].
  - split; [intros _ | reflexivity].
    destruct Hf as [Hf _]. destruct Hf as [e [He Hm]]; [congruence|].
    exists e. split; [assumption | now apply Hs].
  - split; [discriminate|].
    intros [e [He Hm]]. destruct Hf as [_ Hf].
    exfalso. apply Hf; [|reflexivity]. exists e. split; [assumption | now apply Hs].
Qed.

(** *** [validate_kill_command] *)

Lemma kill_family_not_systemctl (cmd : string) :
  In cmd kill_family -> contains "systemctl" cmd = false.
Proof.
  intros [<-|[<-|[<-|[]]]]; reflexivity.
Qed.

(** C5. For every command whose first token is kill, killall or pkill: with
    no further token the verdict is unsafe with a no-target error; otherwise
    the last token is the target, the verdict is unsafe with the protection
    reason as its error when the target is protected, and safe with the
    best-effort process information (possibly absent) when it is not. *)
Theorem validate_kill_command_kill_family settings os command cmd args :
  split command = cmd :: args ->
  In cmd kill_family ->
  let verdict := validate_kill_command settings os command in
  let target := List.last (split command) "" in
  (args = [] ->
   verdict = (false, Some ("No target specified for " ++ cmd), None))
  /\ (args <> [] ->
      (forall reason,
          is_protected_process settings os target = (true, reason) ->
          verdict = (false, reason, None) /\ exists message, reason = Some message)
      /\ (forall reason,
             is_protected_process settings os target = (false, reason) ->
             verdict = (true, None, _get_process_info os target))).
Proof.
  intros Hsplit Hcmd verdict target. subst verdict target.
  unfold validate_kill_command. rewrite Hsplit.
  assert (mem_string cmd ["kill"; "killall"; "pkill"] = true) as ->
    by now apply mem_string_spec.
  split.
  - intros ->. reflexivity.
  - intros Hargs. destruct args as [|a args]; [congruence|].
    cbn [List.length Nat.ltb Nat.leb].
    split; intros reason Hp; rewrite Hp.
    + split; [reflexivity | eapply is_protected_process_reason; eauto].
    + reflexivity.
Qed.

Lemma validate_kill_command_kill_family_witness :
  validate_kill_command default no_processes "kill -9 1"
  = (false, Some "PID 1 is a protected system process", None).
Proof.
  destruct (validate_kill_command_kill_family default no_processes
              "kill -9 1" "kill" ["-9"; "1"] eq_refl (or_introl eq_refl))
    as [_ H].
  destruct (H ltac:(discriminate)) as [Hp _].
  exact (proj1 (Hp _ eq_refl)).
Defined.

(** A trailing [.service] is what [replace] removes when the rest of the
    name holds no other occurrence of it. *)
Lemma service_overlap (s : string) :
  starts_with ".service" (s ++ ".service") = true ->
  s = "" \/ starts_with ".service" s = true.
Proof.
  unfold starts_with. intros H.
  destruct s as [|c1 s]; [now left | right].
  do 8 (cbn [strip_prefix append] in H |- *;
        match goal with
        | |- context [Ascii.eqb ?a ?b] => destruct (Ascii.eqb a b); [|discriminate H]
        end;
        try (destruct s as [|? s]; [vm_compute in H; discriminate H|])).
  reflexivity.
Qed.

Lemma replace_service_suffix (base : string) :
  ~ occurs ".service" base ->
  replace ".service" "" (base ++ ".service") = base.
Proof.
  intros H. apply contains_false_iff in H. unfold replace.
  induction base as [|c b IH]; [reflexivity|].
  simpl in H. apply orb_false_iff in H as [Hs Hc].
  change (String c b ++ ".service") with (String c (b ++ ".service")).
  cbn [replace_go].
  destruct (starts_with ".service" (String c (b ++ ".service"))) eqn:E.
  - exfalso. destruct (service_overlap (String c b) E); congruence.
  - now rewrite (IH Hc).
Qed.

Lemma validate_kill_command_unsafe_reason settings os command error info :
  validate_kill_command settings os command = (false, error, info) ->
  exists message, error = Some message.
Proof.
  unfold validate_kill_command.
  destruct (split command) as [|cmd rest]; [intros [= <- _]; eauto|].
  destruct (mem_string cmd _).
  - destruct (_ <? 2)%nat; [intros [= <- _]; eauto|].
    destruct (is_protected_process settings os _) as [[] reason] eqn:E;
      [|discriminate].
    intros [= <- _]. eapply is_protected_process_reason; eauto.
  - destruct (contains "systemctl" cmd); [|discriminate].
    destruct (_ <? 3)%nat; [intros [= <- _]; eauto|].
    destruct (mem_string _ _); [|discriminate].
    destruct (is_protected_process settings os _) as [[] reason] eqn:E;
      [|discriminate].
    intros [= <- _]. eapply is_protected_process_reason; eauto.
Qed.

(** C6, as amended. For every command whose first token contains
    "systemctl", with an action among stop, disable and mask and a service
    token after it, the ".service" unit suffix is removed from the service
    name before the protection lookup, and the verdict is unsafe with the
    reason when the resulting name is protected, safe otherwise.  A command
    without tokens and a systemctl command of fewer than three tokens are
    reported unsafe; every other command outside the kill family is safe by
    default. *)
Theorem validate_kill_command_systemctl_and_default settings os command :
  let verdict := validate_kill_command settings os command in
  (forall cmd action service rest,
      split command = cmd :: action :: service :: rest ->
      occurs "systemctl" cmd ->
      In action stop_actions ->
      let name := replace ".service" "" service in
      (forall reason,
          is_protected_process settings os name = (true, reason) ->
          verdict = (false, reason, None))
      /\ (forall reason,
             is_protected_process settings os name = (false, reason) ->
             verdict = (true, None, Some (ServiceInfo service action))))
  /\ (forall base,
         ~ occurs ".service" base ->
         replace ".service" "" (base ++ ".service") = base)
  /\ (split command = [] -> verdict = (false, Some "Empty command", None))
  /\ (forall cmd rest,
         split command = cmd :: rest ->
         occurs "systemctl" cmd ->
         (List.length rest < 2)%nat ->
         verdict = (false, Some "Incomplete systemctl command", None))
  /\ (forall cmd rest,
         split command = cmd :: rest ->
         ~ In cmd kill_family ->
         ~ occurs "systemctl" cmd \/
         (exists action service rest',
             rest = action :: service :: rest' /\ ~ In action stop_actions) ->
         verdict = (true, None, None)).
Proof.
  intros verdict. subst verdict. unfold validate_kill_command.
  assert (forall cmd, occurs "systemctl" cmd ->
                      mem_string cmd ["kill"; "killall"; "pkill"] = false) as Hfam.
  { intros cmd Hc. destruct (mem_string cmd _) eqn:E; [|reflexivity].
    apply mem_string_spec, kill_family_not_systemctl in E.
    apply contains_spec in Hc. congruence. }
  split; [|split; [|split; [|split]]].
  - intros cmd action service rest Hsplit Hsys Hact.
    rewrite Hsplit, (Hfam cmd Hsys).
    apply contains_spec in Hsys. rewrite Hsys.
    cbn [List.length Nat.ltb Nat.leb nth].
    assert (mem_string action ["stop"; "disable"; "mask"] = true) as ->
      by now apply mem_string_spec.
    split; intros reason Hp; now rewrite Hp.
  - apply replace_service_suffix.
  - intros ->. reflexivity.
  - intros cmd rest Hsplit Hsys Hlen.
    rewrite Hsplit, (Hfam cmd Hsys).
    apply contains_spec in Hsys. rewrite Hsys.
    destruct rest as [|a [|b rest]]; simpl in Hlen; try lia; reflexivity.
  - intros cmd rest Hsplit Hfamily Hshape. rewrite Hsplit.
    assert (mem_string cmd ["kill"; "killall"; "pkill"] = false) as ->.
    { destruct (mem_string cmd _) eqn:E; [|reflexivity].
      apply mem_string_spec in E. contradiction. }
    destruct Hshape as [Hno | [action [service [rest' [-> Hact]]]]].
    + apply contains_false_iff in Hno. now rewrite Hno.
    + destruct (contains "systemctl" cmd); [|reflexivity].
      cbn [List.length Nat.ltb Nat.leb nth].
      assert (mem_string action ["stop"; "disable"; "mask"] = false) as ->.
      { destruct (mem_string action _) eqn:E; [|reflexivity].
        apply mem_string_spec in E. contradiction. }
      reflexivity.
Qed.

Lemma validate_kill_command_systemctl_witness :
  validate_kill_command default no_processes "systemctl stop sshd.service"
  = (false, Some "'sshd' is a protected system process", None)
  /\ validate_kill_command default no_processes "systemctl stop nginx.service"
     = (true, None, Some (ServiceInfo "nginx.service" "stop"))
  /\ validate_kill_command default no_processes "systemctl status nginx"
     = (true, None, None).
Proof.
  split; [|split].
  - destruct (validate_kill_command_systemctl_and_default default no_processes
                "systemctl stop sshd.service") as [H _].
    refine (proj1 (H "systemctl" "stop" "sshd.service" [] eq_refl _ _) _ eq_refl).
    + now exists "", "".
    + now left.
  - destruct (validate_kill_command_systemctl_and_default default no_processes
                "systemctl stop nginx.service") as [H _].
    refine (proj2 (H "systemctl" "stop" "nginx.service" [] eq_refl _ _) _ eq_refl).
    + now exists "", "".
    + now left.
  - destruct (validate_kill_command_systemctl_and_default default no_processes
                "systemctl status nginx") as [_ [_ [_ [_ H]]]].
    apply (H "systemctl" ["status"; "nginx"] eq_refl).
    + intros [E|[E|[E|[]]]]; discriminate E.
    + right. exists "status", "nginx", []. split; [reflexivity|].
      intros [E|[E|[E|[]]]]; discriminate E.
Defined.

(** The claim as written fails: a systemctl command whose action is not
    stop, disable or mask, and which names no service, is reported unsafe. *)
Lemma validate_kill_command_default_counterexample :
  split "systemctl daemon-reload" = ["systemctl"; "daemon-reload"]
  /\ ~ In "systemctl" kill_family
  /\ ~ In "daemon-reload" stop_actions
  /\ validate_kill_command default no_processes "systemctl daemon-reload"
     = (false, Some "Incomplete systemctl command", None).
Proof.
  repeat split; try reflexivity; intros [E|[E|[E|[]]]]; discriminate E.
Qed.

(** *** [requires_confirmation] *)

Lemma is_kill_variant_spec (command : string) :
  is_kill_variant command = true <-> kill_stop_variant command.
Proof.
  unfold is_kill_variant, kill_stop_variant. rewrite existsb_exists.
  split; intros [k [Hk Ho]]; exists k; (split; [assumption|]);
    now apply contains_spec.
Qed.

(** C8. [requires_confirmation] answers (false, None) when the policy
    switches confirmation off or the command is not dangerous; for a
    dangerous kill/stop variant it follows [validate_kill_command], giving
    (true, the block reason) on an unsafe verdict and (true, an explanation
    that processes will be terminated) on a safe one; for any other
    dangerous command it gives (true, a potentially-destructive reason). *)
Theorem requires_confirmation_cases settings os command :
  let answer := requires_confirmation settings os command in
  (require_confirmation (safety settings) = false -> answer = (false, None))
  /\ (is_dangerous_command settings command = false -> answer = (false, None))
  /\ (require_confirmation (safety settings) = true ->
      is_dangerous_command settings command = true ->
      kill_stop_variant command ->
      (forall error info,
          validate_kill_command settings os command = (false, error, info) ->
          answer = (true, error) /\ exists message, error = Some message)
      /\ (forall error info,
             validate_kill_command settings os command = (true, error, info) ->
             answer = (true, Some (termination_reason info)) /\
             exists detail,
               termination_reason info
               = "This command will terminate processes" ++ detail))
  /\ (require_confirmation (safety settings) = true ->
      is_dangerous_command settings command = true ->
      ~ kill_stop_variant command ->
      answer = (true, Some "This is a potentially destructive command")).
Proof.
  intros answer. subst answer. unfold requires_confirmation.
  split; [|split; [|split]].
  - intros ->. reflexivity.
  - intros ->. now destruct (require_confirmation (safety settings)).
  - intros -> -> Hk. apply is_kill_variant_spec in Hk. rewrite Hk.
    cbn [negb]. split; intros error info Hv; rewrite Hv; cbn [negb].
    + split; [reflexivity|]. eapply validate_kill_command_unsafe_reason; eauto.
    + split; [reflexivity|]. unfold termination_reason. eauto.
  - intros -> -> Hk. cbn [negb].
    destruct (is_kill_variant command) eqn:E; [|reflexivity].
    apply is_kill_variant_spec in E. contradiction.
Qed.

Lemma requires_confirmation_cases_witness :
  requires_confirmation default no_processes "kill 1"
  = (true, Some "PID 1 is a protected system process")
  /\ requires_confirmation default no_processes "kill 4242"
     = (true, Some "This command will terminate processes")
  /\ requires_confirmation default no_processes "rm -rf /"
     = (true, Some "This is a potentially destructive command")
  /\ requires_confirmation default no_processes "ls -la" = (false, None).
Proof.
  split; [|split; [|split]].
  - destruct (requires_confirmation_cases default no_processes "kill 1")
      as [_ [_ [H _]]].
    refine (proj1 (proj1 (H eq_refl eq_refl _) _ _ eq_refl)).
    exists "kill". split; [now left | now exists "", " 1"].
  - destruct (requires_confirmation_cases default no_processes "kill 4242")
      as [_ [_ [H _]]].
    refine (proj1 (proj2 (H eq_refl eq_refl _) _ _ eq_refl)).
    exists "kill". split; [now left | now exists "", " 4242"].
  - destruct (requires_confirmation_cases default no_processes "rm -rf /")
      as [_ [_ [_ H]]].
    apply (H eq_refl eq_refl).
    intros [k [Hk Ho]]. apply contains_spec in Ho.
    destruct Hk as [<-|[<-|[<-|[<-|[]]]]]; discriminate Ho.
  - destruct (requires_confirmation_cases default no_processes "ls -la")
      as [_ [H _]].
    exact (H eq_refl).
Defined.

(** C9. With confirmation enabled, a command that no dangerous-command
    entry matches needs no confirmation, whatever it targets: the protected
    PID and name checks sit behind the dangerous-command test. *)
Theorem requires_confirmation_gated settings os command :
  require_confirmation (safety settings) = true ->
  is_dangerous_command settings command = false ->
  requires_confirmation settings os command = (false, None).
Proof.
  intros Hreq Hd. unfold requires_confirmation. now rewrite Hreq, Hd.
Qed.

(** with "kill" off the dangerous list, "kill 1" passes without
    confirmation although PID 1 is protected *)
Lemma requires_confirmation_gated_witness :
  fst (is_protected_process without_kill no_processes "1") = true
  /\ requires_confirmation without_kill no_processes "kill 1" = (false, None).
Proof.
  split; [reflexivity|].
  apply (requires_confirmation_gated without_kill no_processes "kill 1");
    reflexivity.
Defined.

End SafetyFacts.

(** ** The executor meets its contract *)

Module ExecutorFacts.
Import PyStr Executor ExecutorSpec PyStrFacts.

Lemma spawned_app (tr tr' : list event) :
  spawned (tr ++ tr') = spawned tr || spawned tr'.
Proof. unfold spawned. apply existsb_app. Qed.

(** Writing the history never fails the call and spawns nothing. *)
Lemma log_command_ok settings env command result tr :
  exists tr',
    _log_command settings env command result tr = (Ok tt, tr') /\
    spawned tr' = spawned tr.
Proof.
  unfold _log_command.
  destruct (negb (Settings.log_commands (Settings.logging settings))).
  - now exists tr.
  - unfold try_except. destruct (append_history env) as [e|].
    + now exists tr.
    + unfold emit. eexists. split; [reflexivity|].
      rewrite spawned_app. cbn. apply orb_false_r.
Qed.


Lemma attempt_ok settings env command timeout cwd out err code flag tr1 o e t :
  create_subprocess_shell env command cwd = None ->
  collect_output env timeout [Spawned command cwd] = (Ok (out, err, code, flag), tr1) ->
  enforce_limit settings out err tr1 = (Ok (o, e, t), tr1) ->
  exists tr2,
    attempt settings env command timeout cwd []
    = (Ok {| command := command;
             returncode := exit_code code flag;
             stdout := o;
             stderr := e;
             execution_time := (loop_time_end env - loop_time_start env)%Q;
             timed_out := flag;
             truncated := t;
             working_directory := cwd |}, tr2).
Proof.
  intros Hspawn Hcollect Hlimit. unfold attempt, bind at 1.
  rewrite Hspawn. unfold emit at 1. cbn [app]. unfold bind at 1.
  rewrite Hcollect. unfold bind at 1. rewrite Hlimit. unfold bind.
  match goal with
  | |- context [_log_command settings env command ?res tr1] =>
      destruct (log_command_ok settings env command res tr1) as [tr' [Hlog _]]
  end.
  rewrite Hlog. now exists tr'.
Qed.

Lemma collect_output_captures env timeout out err tr :
  captures env timeout out err ->
  exists code flag tr',
    collect_output env timeout tr = (Ok (out, err, code, flag), tr').
Proof.
  intros H. unfold collect_output, bind.
  destruct H as [out err code Hc | out err code Hc Hk Hd | code Hc Hk Hd];
    rewrite Hc.
  - unfold ret. eauto.
  - destruct (killpg env) as [| |e] eqn:E; [| |now destruct (Hk e)];
      cbn; rewrite Hd; unfold ret; eauto.
  - destruct (killpg env) as [| |e] eqn:E; [| |now destruct (Hk e)];
      cbn; rewrite Hd; unfold ret; eauto.
Qed.

Lemma collect_output_expired env timeout tr :
  communicate env timeout = Expired ->
  (forall e, killpg env <> KillRaised e) ->
  (forall e, communicate_again env <> DrainRaised e) ->
  exists out err tr',
    collect_output env timeout tr
    = (Ok (out, err, code_after_kill env, true), tr').
Proof.
  intros Hc Hk Hd. unfold collect_output, bind, code_after_kill. rewrite Hc.
  destruct (killpg env) as [| |e] eqn:E; [| |now destruct (Hk e)];
    cbn; destruct (communicate_again env) as [o e c|c|e] eqn:E';
    try (now destruct (Hd e)); unfold ret; eauto.
Qed.

Lemma length_substring_0 (n : nat) (s : string) :
  String.length (substring 0 n s) = Nat.min n (String.length s).
Proof.
  revert n; induction s as [|c s IH]; intros [|n]; simpl; auto.
Qed.

Lemma length_slice_to (n : Z) (s : string) :
  0 <= n -> Z.of_nat (String.length (slice_to n s)) <= n.
Proof.
  intros Hn. unfold slice_to.
  destruct (Z.ltb_spec n 0) as [Hneg|_]; [lia|].
  rewrite length_substring_0. lia.
Qed.

(** *** The float division *)

Lemma round_half_even_bounds (n d : Z) :
  0 < d -> n / d <= round_half_even n d <= n / d + 1.
Proof.
  intros Hd. unfold round_half_even.
  destruct (2 * (n mod d) <? d); [lia|].
  destruct (d <? 2 * (n mod d)); [lia|].
  destruct (Z.even (n / d)); lia.
Qed.

Lemma round_half_even_exact (n : Z) : round_half_even n 1 = n.
Proof.
  unfold round_half_even. rewrite Z.mod_1_r, Z.div_1_r. reflexivity.
Qed.

(** A numerator below 2^53 leaves the rounding no room to reach the next
    integer: [int] of the float quotient is the floor of the exact one. *)
Lemma int_true_div_nonneg_exact (a b : Z) :
  0 <= a < 2 ^ 53 -> 0 < b -> int_true_div_nonneg a b = Some (a / b).
Proof.
  intros Ha Hb. unfold int_true_div_nonneg. cbv zeta.
  pose proof (Z.div_pos a b (proj1 Ha) Hb) as Hq0.
  pose proof (Z.mul_div_le a b Hb) as Hle.
  pose proof (Z.mod_pos_bound a b Hb) as Hr.
  pose proof (Z.div_mod a b ltac:(lia)) as Hdm.
  destruct (Z.eqb_spec (a / b) 0) as [E|E].
  - rewrite E. f_equal.
    destruct (Z.leb_spec (b * (2 ^ 54 - 1)) (a * 2 ^ 54)) as [H|H]; [|reflexivity].
    exfalso. rewrite E in Hdm.
    change (2 ^ 54) with 18014398509481984 in H.
    change (2 ^ 53) with 9007199254740992 in Ha. lia.
  - set (q := a / b) in *.
    assert (Hq : 0 < q) by lia.
    pose proof (Z.log2_spec q Hq) as [Hlo Hhi].
    pose proof (Z.log2_nonneg q) as HL.
    set (L := Z.log2 q) in *.
    assert (HL52 : L <= 52).
    { destruct (Z.le_gt_cases L 52) as [|Hgt]; [assumption|exfalso].
      assert (2 ^ 53 <= 2 ^ L) by (apply Z.pow_le_mono_r; lia).
      nia. }
    destruct (Z.leb_spec 52 L) as [H52|H52].
    + assert (L = 52) by lia. subst L.
      replace (Z.log2 q - 52) with 0 by lia.
      change (2 ^ 0) with 1. rewrite !Z.mul_1_r.
      assert (b = 1).
      { replace (Z.log2 q) with 52 in Hlo by lia.
        change (2 ^ 52) with 4503599627370496 in Hlo.
        change (2 ^ 53) with 9007199254740992 in Ha. nia. }
      subst b. rewrite round_half_even_exact.
      destruct (Z.leb_spec (2 ^ 1024) a) as [Hov|_].
      * exfalso.
        assert (2 ^ 53 <= 2 ^ 1024) by (apply Z.pow_le_mono_r; lia). lia.
      * f_equal. unfold q. rewrite Z.div_1_r. reflexivity.
    + f_equal.
      set (s := 52 - L).
      assert (Hs : 1 <= s) by (unfold s; lia).
      assert (HP : 2 ^ s = 2 * 2 ^ (s - 1)).
      { replace s with (Z.succ (s - 1)) at 1 by lia. apply Z.pow_succ_r. lia. }
      assert (HP' : 0 < 2 ^ (s - 1)) by (apply Z.pow_pos_nonneg; lia).
      assert (HLP : 2 ^ L * 2 ^ s = 2 ^ 52).
      { rewrite <- Z.pow_add_r by lia. f_equal. unfold s. lia. }
      set (P := 2 ^ s) in *.
      set (P2 := 2 ^ (s - 1)) in *.
      assert (HbP : b < 2 * P).
      { change (2 ^ 53) with (2 * 2 ^ 52) in Ha. rewrite <- HLP in Ha.
        assert (2 ^ L * b <= a) by nia.
        assert (0 < 2 ^ L) by (apply Z.pow_pos_nonneg; lia).
        nia. }
      symmetry. apply Z.div_unique with (r := round_half_even (a * P) b - q * P).
      { left.
        pose proof (Z.div_mod (a * P) b ltac:(lia)) as Hdm2.
        pose proof (Z.mod_pos_bound (a * P) b Hb) as Hr2.
        unfold round_half_even.
        set (qq := a * P / b) in *. set (rr := (a * P) mod b) in *.
        assert (Hqq1 : q * P <= qq).
        { unfold qq. apply Z.div_le_lower_bound; [assumption|]. nia. }
        assert (Hqq2 : qq <= (q + 1) * P - 1).
        { assert (qq < (q + 1) * P); [|lia].
          unfold qq. apply Z.div_lt_upper_bound; [assumption|]. nia. }
        destruct (Z.ltb_spec (2 * rr) b) as [H1|H1]; [lia|].
        assert (Hcase : qq < (q + 1) * P - 1).
        { destruct (Z.eq_dec qq ((q + 1) * P - 1)) as [Eq|]; [exfalso|lia].
          assert (rr = b - P * (b - a mod b)) by nia.
          nia. }
        destruct (Z.ltb_spec b (2 * rr)) as [H2|H2]; [lia|].
        destruct (Z.even qq); lia. }
      lia.
Qed.

(** A quotient below 2^64 is far from the largest double. *)
Lemma int_true_div_nonneg_small (a b : Z) :
  0 <= a -> 0 < b -> a / b < 2 ^ 64 ->
  exists v, int_true_div_nonneg a b = Some v.
Proof.
  intros Ha Hb Hq. unfold int_true_div_nonneg. cbv zeta.
  destruct (a / b =? 0) eqn:E; [eauto|].
  apply Z.eqb_neq in E.
  pose proof (Z.div_pos a b Ha Hb) as Hq0.
  destruct (52 <=? Z.log2 (a / b)) eqn:E52; [|eauto].
  apply Z.leb_le in E52.
  set (L := Z.log2 (a / b)) in *.
  assert (HL : L < 64) by (apply Z.log2_lt_pow2; lia).
  set (u := 2 ^ (L - 52)).
  assert (Hu : 0 < u <= 2 ^ 11).
  { split; [apply Z.pow_pos_nonneg; lia | apply Z.pow_le_mono_r; lia]. }
  pose proof (round_half_even_bounds a (b * u) ltac:(nia)) as [_ Hup].
  assert (Hdd : a / (b * u) * u <= a / b).
  { rewrite <- Z.div_div by lia. rewrite Z.mul_comm. apply Z.mul_div_le. lia. }
  destruct (Z.leb_spec (2 ^ 1024) (round_half_even a (b * u) * u)) as [Hov|];
    [|eauto].
  exfalso.
  assert (round_half_even a (b * u) * u <= a / b + u) by nia.
  assert (2 ^ 66 <= 2 ^ 1024) by (apply Z.pow_le_mono_r; lia).
  change (2 ^ 66) with 73786976294838206464 in *.
  change (2 ^ 64) with 18446744073709551616 in *.
  change (2 ^ 11) with 2048 in *. lia.
Qed.

Lemma int_true_div_exact (a b : Z) :
  0 <= a < 2 ^ 53 -> 0 < b -> int_true_div a b = Some (a / b).
Proof.
  intros Ha Hb. unfold int_true_div.
  rewrite (Z.abs_eq a), (Z.abs_eq b) by lia.
  rewrite (int_true_div_nonneg_exact a b Ha Hb). cbn [option_map]. f_equal.
  rewrite (Z.sgn_pos b Hb).
  destruct (Z.eq_dec a 0) as [->|Hne].
  - reflexivity.
  - rewrite (Z.sgn_pos a) by lia. lia.
Qed.

Lemma int_true_div_small (a b : Z) :
  0 <= a -> 0 < b -> a / b < 2 ^ 64 -> exists v, int_true_div a b = Some v.
Proof.
  intros Ha Hb Hq. unfold int_true_div.
  rewrite (Z.abs_eq a), (Z.abs_eq b) by lia.
  destruct (int_true_div_nonneg_small a b Ha Hb Hq) as [v Hv].
  rewrite Hv. cbn [option_map]. eauto.
Qed.

Example int_true_div_rounds_up :
  int_true_div (10485760 * 944892830) (944892830 + 128848999) = Some 9227469 /\
  10485760 * 944892830 / (944892830 + 128848999) = 9227468.
Proof. split; reflexivity. Qed.

Example int_true_div_overflows :
  int_true_div (- 10 ^ 400) 1 = None /\ int_true_div (-1) 2 = Some 0.
Proof. split; reflexivity. Qed.

(** *** The output cap *)

Lemma len_range (s : string) : 0 <= len s <= sys_maxsize.
Proof. unfold len, sys_maxsize. change (2 ^ 63 - 1) with 9223372036854775807. lia. Qed.

Lemma len_short (s : string) :
  Z.of_nat (String.length s) <= sys_maxsize -> len s = Z.of_nat (String.length s).
Proof. intros H. unfold len. apply Z.min_l. exact H. Qed.

Lemma len_le (s : string) : len s <= Z.of_nat (String.length s).
Proof. unfold len. apply Z.le_min_l. Qed.

(** With a numerator below 2^53 the stdout limit is the floor of the exact
    quotient, and the two limits share the cap between them. *)
Lemma output_limits_floor (max_size len_out len_err : Z) :
  0 <= max_size -> 0 <= len_out -> 0 <= len_err -> 0 < len_out + len_err ->
  max_size * len_out < 2 ^ 53 ->
  output_limits max_size len_out len_err
  = Some (max_size * len_out / (len_out + len_err),
          max_size - max_size * len_out / (len_out + len_err))
  /\ 0 <= max_size * len_out / (len_out + len_err) <= max_size.
Proof.
  intros Hm Ho He Ht Hsmall. unfold output_limits.
  rewrite int_true_div_exact by nia. split; [reflexivity|]. split.
  - apply Z.div_pos; nia.
  - apply Z.div_le_upper_bound; nia.
Qed.

(** Under a non-negative cap the division neither divides by zero nor
    overflows. *)
Lemma output_limits_ok (max_size : Z) (out err : string) :
  0 <= max_size -> len out + len err > max_size ->
  exists limits, output_limits max_size (len out) (len err) = Some limits.
Proof.
  intros Hm Hover. unfold output_limits.
  pose proof (len_range out) as Ho. pose proof (len_range err) as He.
  destruct (int_true_div_small (max_size * len out) (len out + len err))
    as [v Hv]; try nia.
  - apply Z.le_lt_trans with max_size.
    + apply Z.div_le_upper_bound; nia.
    + unfold sys_maxsize in *.
      change (2 ^ 63 - 1) with 9223372036854775807 in *.
      change (2 ^ 64) with 18446744073709551616. lia.
  - rewrite Hv. eauto.
Qed.

Lemma enforce_limit_ok settings out err tr :
  0 <= Settings.max_output_size (Settings.execution settings) ->
  exists o e t, enforce_limit settings out err tr = (Ok (o, e, t), tr).
Proof.
  intros Hm. unfold enforce_limit. cbv zeta.
  destruct (_ >? _) eqn:E; [|unfold ret; eauto].
  apply Z.gtb_gt in E.
  destruct (Z.eqb_spec (len out + len err) 0) as [H0|_]; [lia|].
  destruct (output_limits_ok _ out err Hm) as [[lo le] Hl]; [lia|].
  rewrite Hl. unfold ret. eauto.
Qed.

(** *** The working directory *)

Lemma resolve_cwd_spec settings env cwd dir :
  resolve_cwd settings env cwd = Ok dir <-> resolves_to settings env cwd dir.
Proof.
  unfold resolve_cwd. split.
  - destruct cwd as [d|].
    + intros [= ->]. apply resolves_given.
    + destruct (Settings.working_directory (Settings.execution settings))
        as [d|] eqn:Hwd.
      * destruct (String.eqb_spec d "") as [->|Hne].
        -- intros Hg. apply resolves_current; auto.
        -- intros [= ->]. now apply resolves_configured.
      * intros Hg. apply resolves_current; auto.
  - intros [d | d Hwd Hne | d Hwd Hg].
    + reflexivity.
    + rewrite Hwd. destruct (String.eqb_spec d ""); [contradiction | reflexivity].
    + destruct Hwd as [Hwd|Hwd]; rewrite Hwd; [exact Hg|].
      cbn. exact Hg.
Qed.

(** the current directory is asked for only when no directory is passed
    and none is configured *)
Lemma resolve_cwd_raises settings env cwd e :
  resolve_cwd settings env cwd = Raise e <->
  cwd = None /\
  (Settings.working_directory (Settings.execution settings) = None \/
   Settings.working_directory (Settings.execution settings) = Some "") /\
  getcwd env = Raise e.
Proof.
  unfold resolve_cwd. split.
  - destruct cwd as [d|]; [discriminate|].
    destruct (Settings.working_directory (Settings.execution settings))
      as [d|] eqn:Hwd.
    + destruct (String.eqb_spec d "") as [->|Hne]; [auto | discriminate].
    + auto.
  - intros [-> [[Hwd|Hwd] Hg]]; rewrite Hwd; exact Hg.
Qed.

(** Once the directory is known, the call is the dry-run answer or the
    guarded attempt. *)
Lemma run_execute_resolved settings env command timeout cwd dry_run dir :
  resolves_to settings env cwd dir ->
  run_execute settings env command timeout cwd dry_run
  = if dry_run
    then (Ok {| command := command;
                returncode := 0;
                stdout := "[DRY RUN] Command would be executed";
                stderr := "";
                execution_time := 0%Q;
                timed_out := false;
                truncated := false;
                working_directory := dir |}, [])
    else try_except
           (attempt settings env command (resolve_timeout settings timeout) dir)
           (on_error settings env command dir) [].
Proof.
  intros Hdir. apply resolve_cwd_spec in Hdir.
  unfold run_execute, execute, bind, lift. rewrite Hdir.
  destruct dry_run; reflexivity.
Qed.

(** An error of [os.getcwd] leaves the call before anything is done. *)
Lemma run_execute_unresolved settings env command timeout cwd dry_run e :
  resolve_cwd settings env cwd = Raise e ->
  run_execute settings env command timeout cwd dry_run = (Raise e, []).
Proof.
  intros Hdir. unfold run_execute, execute, bind, lift. now rewrite Hdir.
Qed.









(** The claim as written fails on the exit code: a process killed on
    timeout and reaped by the second read reports the signal, not 124. *)
Lemma execute_timeout_exit_code_counterexample :
  match run_execute Settings.default sleep_env "sleep 5" (Some 1) None false with
  | (Ok r, _) =>
      timed_out r = true /\ success r = false /\
      returncode r = -9 /\ returncode r <> 124
  | (Raise _, _) => False
  end.
Proof.
  vm_compute. repeat split; discriminate.
Qed.

(** C1, as amended. For every execution that exceeds its timeout, under a
    non-negative output cap and with a teardown that raises nothing, the
    result has [timed_out] set and is not a success; its exit code is the
    return code of the killed process when the system supplied a non-zero
    one, and the sentinel 124 otherwise.  The execution is one whose
    process was spawned, in the directory [dir] that the call resolved. *)
Theorem execute_timeout settings env command timeout cwd dir :
  0 <= Settings.max_output_size (Settings.execution settings) ->
  resolves_to settings env cwd dir ->
  create_subprocess_shell env command dir = None ->
  communicate env (resolve_timeout settings timeout) = Expired ->
  (forall e, killpg env <> KillRaised e) ->
  (forall e, communicate_again env <> DrainRaised e) ->
  exists r tr,
    run_execute settings env command timeout cwd false = (Ok r, tr) /\
    timed_out r = true /\
    success r = false /\
    returncode r =
      match code_after_kill env with
      | Some code => if code =? 0 then 124 else code
      | None => 124
      end.
Proof.
  intros Hmax Hdir Hspawn Hwait Hkill Hdrain.
  destruct (collect_output_expired env _ [Spawned command dir]
              Hwait Hkill Hdrain) as [out [err [tr1 Hc]]].
  destruct (enforce_limit_ok settings out err tr1 Hmax) as [o [e [t Hl]]].
  destruct (attempt_ok settings env command _ _ _ _ _ _ _ _ _ _ Hspawn Hc Hl)
    as [tr2 Ha].
  rewrite (run_execute_resolved _ _ _ _ _ _ _ Hdir).
  unfold try_except. rewrite Ha.
  eexists _, tr2. split; [reflexivity|].
  unfold success. cbn [timed_out returncode negb].
  rewrite andb_false_r. repeat split.
Qed.

Lemma execute_timeout_witness :
  exists r tr,
    run_execute Settings.default sleep_env "sleep 5" (Some 1) None false = (Ok r, tr) /\
    timed_out r = true /\ success r = false /\ returncode r = -9.
Proof.
  apply (execute_timeout Settings.default sleep_env "sleep 5" (Some 1) None
           "/home/user").
  - vm_compute. discriminate.
  - apply resolves_current; [left|]; reflexivity.
  - reflexivity.
  - reflexivity.
  - intros e. discriminate.
  - intros e. discriminate.
Defined.

(** The claim as written fails in two places.  Under a negative cap the
    two limits are negative, both outputs shrink to the bare marker and
    the 54 characters returned exceed the cap plus two markers; [int]
    also rounds -0.5 to 0 where the floor is -1.  And the quotient is a
    float: past 2^53 it is rounded before [int] cuts it, so that a cap of
    10 MiB over 944892830 and 128848999 characters yields a stdout limit
    of 9227469, one more than the floor. *)
Lemma execute_truncates_proportionally_counterexample :
  match run_execute ExtraSpec.negative_cap (ExtraSpec.quick_env "a" "b" 0)
          "printf" None None false with
  | (Ok r, _) =>
      truncated r = true /\
      stdout r = truncation_marker /\
      stderr r = truncation_marker /\
      ~ (Z.of_nat (String.length (stdout r)) + Z.of_nat (String.length (stderr r))
         <= -1 + 2 * Z.of_nat (String.length truncation_marker))
  | (Raise _, _) => False
  end
  /\ output_limits (-1) 1 1 = Some (0, -1)
  /\ -1 * 1 / (1 + 1) = -1
  /\ output_limits 10485760 944892830 128848999 = Some (9227469, 1258291)
  /\ 10485760 * 944892830 / (944892830 + 128848999) = 9227468.
Proof.
  split; [|repeat split; reflexivity].
  vm_compute. repeat split; try reflexivity.
  intros H. apply H. reflexivity.
Qed.

(** C2, as amended. For every decoded stdout/stderr pair whose combined
    length exceeds a non-negative [max_output_size], with
    [max_output_size * len stdout] below 2^53 and the lengths within what a
    Python string can hold, [execute] cuts stdout to
    [floor (max_output_size * len stdout / total)] characters and stderr to
    the rest of the cap, appends the marker, a line feed followed by
    "[... OUTPUT TRUNCATED ...]", to both, sets [truncated], and returns at
    most [max_output_size] plus the 54 characters of two markers; a cap of
    100 over a 600/400 split gives a stdout limit of 60. *)
Theorem execute_truncates_proportionally :
  (forall settings env command timeout cwd dir out err,
      let max_size := Settings.max_output_size (Settings.execution settings) in
      let len_out := Z.of_nat (String.length out) in
      let len_err := Z.of_nat (String.length err) in
      let stdout_limit := max_size * len_out / (len_out + len_err) in
      let stderr_limit := max_size - stdout_limit in
      let marker := String "010"%char "[... OUTPUT TRUNCATED ...]" in
      0 <= max_size ->
      max_size * len_out < 2 ^ 53 ->
      len_out + len_err < 2 ^ 63 ->
      resolves_to settings env cwd dir ->
      create_subprocess_shell env command dir = None ->
      captures env (resolve_timeout settings timeout) out err ->
      len_out + len_err > max_size ->
      exists r tr,
        run_execute settings env command timeout cwd false = (Ok r, tr) /\
        stdout r = slice_to stdout_limit out ++ marker /\
        stderr r = slice_to stderr_limit err ++ marker /\
        truncated r = true /\
        Z.of_nat (String.length (stdout r)) + Z.of_nat (String.length (stderr r))
        <= max_size + 2 * 27)
  /\ output_limits 100 600 400 = Some (60, 40).
Proof.
  split; [|reflexivity].
  intros settings env command timeout cwd dir out err max_size len_out len_err
         stdout_limit stderr_limit marker Hmax Hsmall Hstr Hdir Hspawn Hcap Hover.
  destruct (collect_output_captures env _ out err [Spawned command dir] Hcap)
    as [code [flag [tr1 Hc]]].
  destruct (output_limits_floor max_size len_out len_err) as [Hlim Hrange];
    try lia.
  assert (len out = len_out /\ len err = len_err) as [Hlo Hle].
  { unfold sys_maxsize, len_out, len_err in *.
    split; apply len_short; unfold sys_maxsize;
      change (2 ^ 63) with 9223372036854775808 in *; lia. }
  assert (enforce_limit settings out err tr1
          = (Ok (slice_to stdout_limit out ++ marker,
                 slice_to stderr_limit err ++ marker, true), tr1)) as Hl.
  { unfold enforce_limit. cbv zeta. rewrite Hlo, Hle. fold max_size.
    destruct (Z.gtb_spec (len_out + len_err) max_size) as [_|Hle']; [|lia].
    destruct (Z.eqb_spec (len_out + len_err) 0) as [H0|_]; [lia|].
    rewrite Hlim. reflexivity. }
  destruct (attempt_ok settings env command _ _ _ _ _ _ _ _ _ _ Hspawn Hc Hl)
    as [tr2 Ha].
  rewrite (run_execute_resolved _ _ _ _ _ _ _ Hdir).
  unfold try_except. rewrite Ha.
  eexists _, tr2. split; [reflexivity|]. cbn [stdout stderr truncated].
  repeat split.
  rewrite !length_append.
  pose proof (length_slice_to stdout_limit out) as H1.
  pose proof (length_slice_to stderr_limit err) as H2.
  subst stderr_limit. fold stdout_limit in Hrange.
  change (Z.of_nat (String.length marker)) with 27 in *.
  rewrite !Nat2Z.inj_add.
  change (Z.of_nat (String.length marker)) with 27. lia.
Qed.

Lemma execute_truncates_proportionally_witness :
  exists r tr,
    run_execute small_cap noisy_env "noisy" None None false = (Ok r, tr) /\
    stdout r = repeat_char "o" 60 ++ String "010"%char "[... OUTPUT TRUNCATED ...]" /\
    stderr r = repeat_char "e" 40 ++ String "010"%char "[... OUTPUT TRUNCATED ...]" /\
    truncated r = true /\
    Z.of_nat (String.length (stdout r)) + Z.of_nat (String.length (stderr r))
    <= 100 + 2 * 27.
Proof.
  apply (proj1 execute_truncates_proportionally small_cap noisy_env "noisy"
           None None "/home/user" (repeat_char "o" 600) (repeat_char "e" 400)).
  - vm_compute. discriminate.
  - vm_compute. reflexivity.
  - vm_compute. reflexivity.
  - apply resolves_current; [left|]; reflexivity.
  - reflexivity.
  - now apply captures_finished with (code := 0).
  - vm_compute. reflexivity.
Defined.

End ExecutorFacts.

(** ** Further properties of the safety validator *)

Module SafetyExtras.
Import PyStr Settings Safety Spec SafetySpec ExtraSpec PyStrFacts SafetyFacts.

(** *** Letter case *)

Lemma lower_char_idempotent (c : ascii) : lower_char (lower_char c) = lower_char c.
Proof. destruct c as [[] [] [] [] [] [] [] []]; reflexivity. Qed.

Lemma lower_char_space (c : ascii) : is_space (lower_char c) = is_space c.
Proof. destruct c as [[] [] [] [] [] [] [] []]; reflexivity. Qed.

Lemma lower_idempotent (s : string) : lower (lower s) = lower s.
Proof.
  induction s as [|c s IH]; simpl; [reflexivity|].
  now rewrite lower_char_idempotent, IH.
Qed.

Lemma lower_append (a b : string) : lower (a ++ b) = lower a ++ lower b.
Proof. induction a as [|c a IH]; simpl; [reflexivity | now rewrite IH]. Qed.

Lemma length_lower (s : string) : String.length (lower s) = String.length s.
Proof. induction s as [|c s IH]; simpl; [reflexivity | now rewrite IH]. Qed.

Lemma append_inj_length (a a' b b' : string) :
  a ++ b = a' ++ b' -> String.length a = String.length a' -> a = a' /\ b = b'.
Proof.
  revert a'; induction a as [|c a IH]; intros [|c' a'] H Hl; simpl in *;
    try discriminate; [now split|].
  injection H as -> H. injection Hl as Hl.
  destruct (IH a' H Hl) as [-> ->]. now split.
Qed.

(** What occurs in a lowercased text is in lower case itself. *)
Lemma occurs_in_lower (entry text : string) :
  occurs entry (lower text) -> lower entry = entry.
Proof.
  intros [pre [post H]].
  pose proof (f_equal lower H) as H'.
  rewrite lower_idempotent, !lower_append, H in H'.
  destruct (append_inj_length pre (lower pre) _ _ H') as [_ H2];
    [now rewrite length_lower|].
  destruct (append_inj_length entry (lower entry) _ _ H2) as [H3 _];
    [now rewrite length_lower|].
  now symmetry.
Qed.

Lemma occurs_as_word_occurs (lit text : string) :
  occurs_as_word lit text -> occurs lit text.
Proof. intros [pre [post [H _]]]. now exists pre, post. Qed.

Lemma dangerous_iff_entry_occurs settings command :
  is_dangerous_command settings command = true <->
  exists entry,
    In entry (dangerous_commands (safety settings)) /\
    occurs_as_word entry (lower command).
Proof.
  unfold is_dangerous_command.
  pose proof (first_dangerous_found (dangerous_commands (safety settings))
                (strip (lower command))) as Hf.
  assert (forall entry,
             re_search_word entry (strip (lower command)) = true <->
             occurs_as_word entry (lower command)) as Hs.
  { intros entry. rewrite re_search_word_strip. apply re_search_word_spec. }
  destruct (first_dangerous _ _) as [d|].
  - split; [intros _ | reflexivity].
    destruct (proj1 Hf) as [e [He Hm]]; [congruence|].
    exists e. split; [assumption | now apply Hs].
  - split; [discriminate|].
    intros [e [He Hm]]. exfalso. apply (proj2 Hf); [|reflexivity].
    exists e. split; [assumption | now apply Hs].
Qed.

(** X1. The entries of the dangerous list are matched as written against
    the lowercased command: an entry holding a capital letter matches no
    command, so a policy made of such entries flags nothing. *)
Theorem capital_entries_never_match settings command :
  (forall entry,
      In entry (dangerous_commands (safety settings)) -> lower entry <> entry) ->
  is_dangerous_command settings command = false.
Proof.
  intros Hcap. destruct (is_dangerous_command settings command) eqn:E;
    [|reflexivity].
  apply dangerous_iff_entry_occurs in E as [entry [Hin Hocc]].
  exfalso. apply (Hcap entry Hin).
  now apply occurs_in_lower with (text := command), occurs_as_word_occurs.
Qed.

Lemma capital_entries_never_match_witness :
  is_dangerous_command capital_entries "rm -rf /" = false
  /\ is_dangerous_command capital_entries "RM -rf /" = false.
Proof.
  split; apply capital_entries_never_match;
    intros entry [<-|[<-|[]]]; discriminate.
Defined.

(** *** The shape of the verdicts *)

(** X2. A verdict of [validate_kill_command] carries an error message
    exactly when it is unsafe, and process information only when it is
    safe. *)
Theorem validate_kill_command_verdict_shape settings os command :
  match validate_kill_command settings os command with
  | (true, error, _) => error = None
  | (false, error, info) => (exists message, error = Some message) /\ info = None
  end.
Proof.
  destruct (validate_kill_command settings os command) as [[[] error] info] eqn:E.
  - revert E. unfold validate_kill_command.
    destruct (split command) as [|cmd rest]; [discriminate|].
    destruct (mem_string cmd _).
    + destruct (_ <? 2)%nat; [discriminate|].
      destruct (is_protected_process settings os _) as [[] reason];
        [discriminate | now intros [= <- _]].
    + destruct (contains "systemctl" cmd); [|now intros [= <- _]].
      destruct (_ <? 3)%nat; [discriminate|].
      destruct (mem_string _ _); [|now intros [= <- _]].
      destruct (is_protected_process settings os _) as [[] reason];
        [discriminate | now intros [= <- _]].
  - split; [eapply validate_kill_command_unsafe_reason; eauto|].
    revert E. unfold validate_kill_command.
    destruct (split command) as [|cmd rest]; [now intros [= _ <-]|].
    destruct (mem_string cmd _).
    + destruct (_ <? 2)%nat; [now intros [= _ <-]|].
      destruct (is_protected_process settings os _) as [[] reason];
        [now intros [= _ <-] | discriminate].
    + destruct (contains "systemctl" cmd); [|discriminate].
      destruct (_ <? 3)%nat; [now intros [= _ <-]|].
      destruct (mem_string _ _); [|discriminate].
      destruct (is_protected_process settings os _) as [[] reason];
        [now intros [= _ <-] | discriminate].
Qed.

(** X3. [requires_confirmation] gives a reason exactly when it asks for a
    confirmation: the answer is never [(true, None)] nor [(false, Some _)]. *)
Theorem requires_confirmation_reason_present settings os command :
  match requires_confirmation settings os command with
  | (true, reason) => exists message, reason = Some message
  | (false, reason) => reason = None
  end.
Proof.
  unfold requires_confirmation.
  destruct (negb (require_confirmation (safety settings))); [reflexivity|].
  destruct (is_dangerous_command settings command); [|reflexivity].
  destruct (is_kill_variant command); [|eauto].
  destruct (validate_kill_command settings os command) as [[[] error] info] eqn:E;
    cbn [negb]; [eauto|].
  eapply validate_kill_command_unsafe_reason; eauto.
Qed.

(** X4. Whether a confirmation is asked depends on the policy and the
    command only: it is asked exactly when confirmation is enabled and the
    command is dangerous, whatever the process table holds. *)
Theorem requires_confirmation_decision settings os command :
  fst (requires_confirmation settings os command)
  = require_confirmation (safety settings) && is_dangerous_command settings command.
Proof.
  unfold requires_confirmation.
  destruct (require_confirmation (safety settings)); [|reflexivity].
  destruct (is_dangerous_command settings command); [|reflexivity].
  cbn [negb andb].
  destruct (is_kill_variant command); [|reflexivity].
  now destruct (validate_kill_command settings os command) as [[[] error] info].
Qed.

(** *** Protection by name *)

Lemma check_protected_names_hit (names : list string) (name_lower : string) :
  fst (check_protected_names names name_lower)
  = existsb (fun p => contains (lower p) name_lower) names.
Proof.
  induction names as [|p names IH]; simpl; [reflexivity|].
  destruct (contains (lower p) name_lower); [reflexivity | exact IH].
Qed.

Lemma check_process_name_hit settings name :
  fst (check_process_name settings name) = true <->
  exists p, In p (protected_processes (safety settings)) /\ occurs_ci p name.
Proof.
  unfold check_process_name. rewrite check_protected_names_hit, existsb_exists.
  split; intros [p [Hin Hc]]; exists p; (split; [assumption|]);
    now apply contains_spec.
Qed.

Lemma occurs_empty (s : string) : occurs "" s.
Proof. now exists "", s. Qed.

(** X5. An empty string among the protected names protects every name:
    whenever the name check is reached, on the identifier or on the name
    resolved from a PID, the process is reported protected. *)
Theorem empty_protected_name_protects_all settings os identifier name :
  In "" (protected_processes (safety settings)) ->
  checked_name settings os identifier name ->
  fst (is_protected_process settings os identifier) = true.
Proof.
  intros Hempty Hname.
  assert (fst (check_process_name settings name) = true) as Hhit.
  { apply check_process_name_hit. exists "". split; [assumption|].
    unfold occurs_ci. apply occurs_empty. }
  unfold is_protected_process.
  destruct Hname as [Hint | pid n Hint Hout Hproc | pid Hint Hout Hproc];
    rewrite Hint; [assumption | |].
  - destruct (pid_in pid _); [reflexivity|]. now rewrite Hproc.
  - destruct (pid_in pid _); [reflexivity|]. now rewrite Hproc.
Qed.

Lemma empty_protected_name_protects_all_witness :
  fst (is_protected_process empty_protected_name no_processes "firefox") = true.
Proof.
  apply (empty_protected_name_protects_all empty_protected_name no_processes
           "firefox" "firefox").
  - right. now left.
  - now apply checked_identifier.
Defined.

Lemma pid_in_incl (pid : Z) (l l' : list Z) :
  incl l l' -> pid_in pid l = true -> pid_in pid l' = true.
Proof. rewrite !pid_in_spec. auto. Qed.

Lemma check_process_name_incl settings settings' name :
  incl (protected_processes (safety settings))
       (protected_processes (safety settings')) ->
  fst (check_process_name settings name) = true ->
  fst (check_process_name settings' name) = true.
Proof.
  intros Hincl. rewrite !check_process_name_hit.
  intros [p [Hin Ho]]. exists p. auto.
Qed.

(** X6. Extending the policy never lifts a protection: an identifier that
    is protected stays protected when PIDs or names are added to the
    protected sets. *)
Theorem protection_is_monotone settings settings' os identifier :
  incl (protected_pids (safety settings)) (protected_pids (safety settings')) ->
  incl (protected_processes (safety settings))
       (protected_processes (safety settings')) ->
  fst (is_protected_process settings os identifier) = true ->
  fst (is_protected_process settings' os identifier) = true.
Proof.
  intros Hpids Hnames. unfold is_protected_process.
  destruct (py_int identifier) as [pid|];
    [|now apply check_process_name_incl].
  destruct (pid_in pid (protected_pids (safety settings))) eqn:E.
  - now rewrite (pid_in_incl pid _ _ Hpids E).
  - destruct (pid_in pid (protected_pids (safety settings'))); [reflexivity|].
    destruct (process_name os pid); try (intros H; exact H);
      now apply check_process_name_incl.
Qed.

Lemma protection_is_monotone_witness :
  fst (is_protected_process empty_protected_name no_processes "systemd-logind") = true.
Proof.
  apply (protection_is_monotone
           (with_safety default
              {| require_confirmation := true;
                 protected_processes := ["systemd"];
                 protected_pids := [];
                 dangerous_commands := [] |})
           empty_protected_name no_processes "systemd-logind").
  - intros x [].
  - intros x [<-|[]]. now left.
  - reflexivity.
Defined.

(** *** Process information *)

Lemma matching_spec (identifier_lower : string) (procs : list proc_entry)
    (m : matching_process) :
  In m (matching identifier_lower procs) <->
  exists e,
    In e procs /\
    occurs identifier_lower (lower (pe_name e)) /\
    m = {| mp_pid := pe_pid e;
           mp_name := pe_name e;
           mp_cmdline :=
             join " " (match pe_cmdline e with Some l => l | None => [] end) |}.
Proof.
  induction procs as [|proc procs IH]; simpl.
  - split; [intros [] | intros [e [[] _]]].
  - destruct (contains identifier_lower (lower (pe_name proc))) eqn:E.
    + simpl. rewrite IH. split.
      * intros [<- | [e [Hin [Ho Hm]]]].
        -- exists proc. repeat split; [now left | now apply contains_spec].
        -- exists e. repeat split; auto.
      * intros [e [[<- | Hin] [Ho Hm]]]; [now left | right; eauto].
    + rewrite IH. apply contains_false_iff in E. split.
      * intros [e [Hin [Ho Hm]]]. exists e. repeat split; auto.
      * intros [e [[<- | Hin] [Ho Hm]]]; [contradiction | eauto].
Qed.

(** X7. For an identifier that is not a number, [_get_process_info] scans
    the process table by name: it answers [None] exactly when no process
    name contains the identifier (case ignored); otherwise it lists exactly
    the processes whose name contains it, in a non-empty list whose length
    is the reported count. *)
Theorem get_process_info_by_name os identifier :
  py_int identifier = None ->
  (_get_process_info os identifier = None <->
   forall e, In e (process_iter os) -> ~ occurs_ci identifier (pe_name e))
  /\ (forall info,
         _get_process_info os identifier = Some info ->
         exists processes,
           info = MatchingProcesses processes (List.length processes) /\
           processes <> [] /\
           forall m,
             In m processes <->
             exists e,
               In e (process_iter os) /\
               occurs_ci identifier (pe_name e) /\
               m = {| mp_pid := pe_pid e;
                      mp_name := pe_name e;
                      mp_cmdline :=
                        join " " (match pe_cmdline e with
                                  | Some l => l
                                  | None => []
                                  end) |}).
Proof.
  intros Hint. unfold _get_process_info, scan_by_name. rewrite Hint.
  pose proof (matching_spec (lower identifier) (process_iter os)) as Hm.
  destruct (matching (lower identifier) (process_iter os)) as [|m0 ms].
  - split.
    + split; [|reflexivity]. intros _ e Hin Ho.
      exact (proj2 (Hm _) (ex_intro _ e (conj Hin (conj Ho eq_refl)))).
    + discriminate.
  - split.
    + split; [discriminate|]. intros Hnone. exfalso.
      destruct (proj1 (Hm m0) (or_introl eq_refl)) as [e [Hin [Ho _]]].
      exact (Hnone e Hin Ho).
    + intros info [= <-]. exists (m0 :: ms). repeat split; [discriminate| |].
      * intros H. exact (proj1 (Hm m) H).
      * intros H. exact (proj2 (Hm m) H).
Qed.

Lemma get_process_info_by_name_witness :
  (forall e, In e (process_iter browsing_table) -> ~ occurs_ci "nginx" (pe_name e))
  /\ exists processes,
       MatchingProcesses
         [ {| mp_pid := 4242; mp_name := "firefox"; mp_cmdline := "firefox --new-tab" |};
           {| mp_pid := 4250; mp_name := "Firefox-bin"; mp_cmdline := "" |} ] 2
       = MatchingProcesses processes (List.length processes) /\
       processes <> [] /\
       forall m,
         In m processes <->
         exists e,
           In e (process_iter browsing_table) /\
           occurs_ci "FIRE" (pe_name e) /\
           m = {| mp_pid := pe_pid e;
                  mp_name := pe_name e;
                  mp_cmdline :=
                    join " " (match pe_cmdline e with
                              | Some l => l
                              | None => []
                              end) |}.
Proof.
  split.
  - exact (proj1 (proj1 (get_process_info_by_name browsing_table "nginx" eq_refl))
             eq_refl).
  - exact (proj2 (get_process_info_by_name browsing_table "FIRE" eq_refl)
             _ eq_refl).
Defined.

(** *** From the tokens of a command to the answer *)

Lemma split_fold_shape (s : string) :
  match split_fold s with
  | (Some t, _) => exists post, s = t ++ post /\ ends_token post = true
  | (None, toks) =>
      ends_token s = true /\
      match toks with
      | t :: _ =>
          exists pre post,
            s = pre ++ t ++ post /\ all_space pre = true /\ ends_token post = true
      | [] => True
      end
  end.
Proof.
  induction s as [|c s IH]; [simpl; auto|].
  cbn [split_fold]. destruct (split_fold s) as [cur toks].
  destruct (is_space c) eqn:Ec; destruct cur as [t|]; simpl in IH.
  - destruct IH as [post [Hs Hp]]. split; [exact Ec|].
    exists (String c ""), post.
    repeat split; [simpl; f_equal; exact Hs | simpl; now rewrite Ec | exact Hp].
  - destruct IH as [He Ht]. split; [exact Ec|].
    destruct toks as [|t toks]; [exact I|].
    destruct Ht as [pre [post [Hs [Hpre Hp]]]].
    exists (String c pre), post.
    repeat split; [simpl; f_equal; exact Hs | simpl; now rewrite Ec, Hpre | exact Hp].
  - destruct IH as [post [Hs Hp]]. exists post.
    split; [simpl; f_equal; exact Hs | exact Hp].
  - destruct IH as [He _]. exists s. split; [reflexivity | exact He].
Qed.

(** The first token stands between whitespace, or the ends of the text. *)
Lemma first_token_delimited (s t : string) (toks : list string) :
  split s = t :: toks ->
  exists pre post,
    s = pre ++ t ++ post /\ all_space pre = true /\ ends_token post = true.
Proof.
  unfold split. pose proof (split_fold_shape s) as H.
  destruct (split_fold s) as [[t'|] toks'].
  - intros [= -> ->]. destruct H as [post [Hs Hp]].
    exists "", post. repeat split; assumption.
  - intros ->. destruct H as [_ H]. exact H.
Qed.

Lemma all_space_last (pre : string) (d : option ascii) :
  is_word_opt d = false -> all_space pre = true ->
  is_word_opt (last_or d pre) = false.
Proof.
  revert d; induction pre as [|c pre IH]; intros d Hd Hp; simpl in *;
    [assumption|].
  apply andb_true_iff in Hp as [Hc Hp].
  apply IH; [simpl; now apply space_not_word | assumption].
Qed.

Lemma all_space_lower (s : string) : all_space (lower s) = all_space s.
Proof.
  induction s as [|c s IH]; simpl; [reflexivity|].
  now rewrite lower_char_space, IH.
Qed.

Lemma ends_token_lower (s : string) : ends_token (lower s) = ends_token s.
Proof. destruct s; simpl; [reflexivity | apply lower_char_space]. Qed.

Lemma ends_token_not_word (s : string) :
  ends_token s = true -> is_word_opt (head s) = false.
Proof. destruct s; simpl; [reflexivity | apply space_not_word]. Qed.

Lemma kill_family_token_is_word (command cmd : string) (args : list string) :
  In cmd kill_family ->
  split command = cmd :: args ->
  occurs_as_word cmd (lower command) /\ occurs "kill" (lower command).
Proof.
  intros Hfam Hsplit.
  destruct (first_token_delimited command cmd args Hsplit)
    as [pre [post [Hs [Hpre Hpost]]]].
  assert (is_word_opt (last_or None (lower pre)) = false) as Hlast
    by (apply all_space_last; [reflexivity | now rewrite all_space_lower]).
  assert (is_word_opt (head (lower post)) = false) as Hhead
    by (apply ends_token_not_word; now rewrite ends_token_lower).
  subst command. rewrite !lower_append.
  assert (forall lit : string,
             is_word_opt (head (lit ++ lower post)) = true ->
             is_word_opt (last_or (last_or None (lower pre)) lit) = true ->
             occurs_as_word lit (lower pre ++ lit ++ lower post)) as Hword.
  { intros lit H1 H2. exists (lower pre), (lower post).
    split; [reflexivity|]. rewrite last_or_append. unfold word_boundary.
    now rewrite Hlast, H1, H2, Hhead. }
  destruct Hfam as [<-|[<-|[<-|[]]]].
  - change (lower "kill") with "kill". split.
    + apply Hword; reflexivity.
    + now exists (lower pre), (lower post).
  - change (lower "killall") with "killall". split.
    + apply Hword; reflexivity.
    + now exists (lower pre), ("all" ++ lower post).
  - change (lower "pkill") with "pkill". split.
    + apply Hword; reflexivity.
    + exists (lower pre ++ "p"), (lower post). now rewrite append_assoc.
Qed.

(** X8. Under a policy that requires confirmation and lists the command
    word as dangerous, the answer to a kill, killall or pkill command is
    decided by its last token: if that target is protected the answer is
    the protection reason, whatever flags come before it, and otherwise it
    is the explanation that processes will be terminated. *)
Theorem kill_family_answer_follows_last_token settings os command cmd args :
  require_confirmation (safety settings) = true ->
  In cmd kill_family ->
  In cmd (dangerous_commands (safety settings)) ->
  split command = cmd :: args ->
  args <> [] ->
  (forall reason,
      is_protected_process settings os (List.last args "") = (true, reason) ->
      requires_confirmation settings os command = (true, reason))
  /\ (forall reason,
         is_protected_process settings os (List.last args "") = (false, reason) ->
         requires_confirmation settings os command
         = (true, Some (termination_reason
                          (_get_process_info os (List.last args ""))))).
Proof.
  intros Hreq Hfam Hdanger Hsplit Hargs.
  destruct (kill_family_token_is_word command cmd args Hfam Hsplit)
    as [Hword Hkill].
  assert (is_dangerous_command settings command = true) as Hd.
  { apply dangerous_iff_entry_occurs. exists cmd. auto. }
  assert (is_kill_variant command = true) as Hv.
  { apply is_kill_variant_spec. exists "kill". split; [now left | assumption]. }
  unfold requires_confirmation. rewrite Hreq, Hd, Hv. cbn [negb].
  unfold validate_kill_command. rewrite Hsplit.
  assert (mem_string cmd ["kill"; "killall"; "pkill"] = true) as ->
    by now apply mem_string_spec.
  destruct args as [|a args]; [congruence|].
  cbn [List.length Nat.ltb Nat.leb].
  change (List.last (cmd :: a :: args) "") with (List.last (a :: args) "").
  split; intros reason Hp; rewrite Hp; reflexivity.
Qed.

Lemma kill_family_answer_follows_last_token_witness :
  requires_confirmation default no_processes "kill -9 1"
  = (true, Some "PID 1 is a protected system process").
Proof.
  refine (proj1 (kill_family_answer_follows_last_token default no_processes
                   "kill -9 1" "kill" ["-9"; "1"] eq_refl _ _ eq_refl _)
            _ eq_refl).
  - now left.
  - right. now left.
  - discriminate.
Defined.

End SafetyExtras.

(** ** Further properties of the executor *)

Module ExecutorExtras.
Import PyStr Executor ExecutorSpec ExtraSpec PyStrFacts ExecutorFacts.

(** The paths of [execute]: one case for each answer of the environment
    and each test of the code. *)
Ltac split_paths env :=
  repeat (lazy beta iota zeta;
          match goal with
          | |- context [create_subprocess_shell env ?c ?d] =>
              destruct (create_subprocess_shell env c d) eqn:?
          | |- context [communicate env ?t] => destruct (communicate env t) eqn:?
          | |- context [killpg env] => destruct (killpg env) eqn:?
          | |- context [communicate_again env] =>
              destruct (communicate_again env) eqn:?
          | |- context [append_history env] => destruct (append_history env) eqn:?
          | |- context [Settings.log_commands ?l] =>
              destruct (Settings.log_commands l) eqn:?
          | |- context [?a >? ?b] => destruct (a >? b) eqn:?
          | |- context [?a =? 0] => destruct (a =? 0) eqn:?
          | |- context [output_limits ?a ?b ?c] =>
              destruct (output_limits a b c) as [[? ?]|] eqn:?
          end);
  lazy beta iota zeta.

Ltac body_unfold :=
  unfold try_except, attempt, on_error, collect_output,
    enforce_limit, _log_command, try_except, bind, ret, raise, emit.

Ltac body_paths env := body_unfold; split_paths env; cbn [app fst snd negb].

Ltac over_cap_contradiction :=
  match goal with
  | H : (_ >? _) = true |- _ => apply Z.gtb_lt in H; lia
  | H : (_ =? 0) = true |- _ => apply Z.eqb_eq in H; lia
  end.



(** X11. Whether the history is kept, and whether writing it succeeds, has
    no effect on the result that [execute] returns. *)
Theorem execute_result_ignores_history settings env logging fate
    command timeout cwd dry_run :
  fst (run_execute (with_logging settings logging) (with_append_history env fate)
         command timeout cwd dry_run)
  = fst (run_execute settings env command timeout cwd dry_run).
Proof.
  unfold run_execute, execute, bind, lift.
  change (resolve_cwd (with_logging settings logging)
            (with_append_history env fate) cwd)
    with (resolve_cwd settings env cwd).
  destruct (resolve_cwd settings env cwd) as [dir|e]; [|reflexivity].
  destruct dry_run; [reflexivity|].
  body_unfold. unfold with_logging, with_append_history, resolve_timeout.
  cbn [Settings.execution Settings.logging Settings.max_output_size
       Settings.working_directory Settings.command_timeout
       getcwd loop_time_start loop_time_end now_isoformat create_subprocess_shell
       communicate killpg communicate_again append_history].
  destruct fate; destruct (Settings.log_commands logging);
    split_paths env; reflexivity.
Qed.

Lemma resolves_to_functional settings env cwd d1 d2 :
  resolves_to settings env cwd d1 -> resolves_to settings env cwd d2 -> d1 = d2.
Proof.
  intros H1 H2. apply resolve_cwd_spec in H1. apply resolve_cwd_spec in H2.
  congruence.
Qed.

(** X12. A call spawns at most one process, with the command and the
    working directory of the call (the [cwd] passed, else the non-empty
    configured directory, else the current directory), before anything
    else it does; a dry run, a call whose working directory cannot be
    found, or a failed spawn starts none.  The process group is killed only
    after the wait for the process has timed out. *)
Theorem execute_spawns_at_most_once settings env command timeout cwd dry_run :
  let tr := snd (run_execute settings env command timeout cwd dry_run) in
  (if dry_run then tr = []
   else
     (forall dir,
         resolves_to settings env cwd dir ->
         match create_subprocess_shell env command dir with
         | None =>
             exists rest, tr = Spawned command dir :: rest /\ filter is_spawn rest = []
         | Some _ => filter is_spawn tr = []
         end)
     /\ ((forall dir, ~ resolves_to settings env cwd dir) -> tr = []))
  /\ (In GroupKilled tr ->
      communicate env (resolve_timeout settings timeout) = Expired /\
      killpg env = Killed).
Proof.
  destruct (resolve_cwd settings env cwd) as [dir0|e0] eqn:Hdir.
  - apply resolve_cwd_spec in Hdir.
    rewrite (run_execute_resolved _ _ _ _ _ _ _ Hdir).
    destruct dry_run.
    + split; [reflexivity | intros []].
    + assert ((match create_subprocess_shell env command dir0 with
               | None =>
                   exists rest,
                     snd (try_except
                            (attempt settings env command
                               (resolve_timeout settings timeout) dir0)
                            (on_error settings env command dir0) [])
                     = Spawned command dir0 :: rest /\ filter is_spawn rest = []
               | Some _ =>
                   filter is_spawn
                     (snd (try_except
                             (attempt settings env command
                                (resolve_timeout settings timeout) dir0)
                             (on_error settings env command dir0) [])) = []
               end)
              /\ (In GroupKilled
                    (snd (try_except
                            (attempt settings env command
                               (resolve_timeout settings timeout) dir0)
                            (on_error settings env command dir0) [])) ->
                  communicate env (resolve_timeout settings timeout) = Expired /\
                  killpg env = Killed)) as [Hshape Hkill].
      { body_paths env; cbn [snd];
          (split; [try (eexists; split; reflexivity); reflexivity|]);
          cbn [In]; intros H;
            repeat match goal with
                   | H : _ \/ _ |- _ => destruct H
                   | H : False |- _ => destruct H
                   | H : _ = GroupKilled |- _ => discriminate H
                   end; split; reflexivity. }
      cbv zeta. split; [|exact Hkill]. split.
      * intros dir Hd.
        rewrite (resolves_to_functional _ _ _ _ _ Hd Hdir). exact Hshape.
      * intros Hnone. destruct (Hnone dir0 Hdir).
  - rewrite (run_execute_unresolved _ _ _ _ _ _ _ Hdir). cbn [snd].
    split; [|intros []].
    destruct dry_run; [reflexivity|]. split; [|reflexivity].
    intros dir Hd. apply resolve_cwd_spec in Hd. congruence.
Qed.

Lemma length_zero_empty (s : string) : String.length s = 0%nat -> s = "".
Proof. destruct s; [reflexivity | discriminate]. Qed.

(** X13. Output that fits the cap is returned as it was captured, and is
    not marked as truncated. *)
Theorem execute_keeps_output_within_cap settings env command timeout cwd dir out err :
  resolves_to settings env cwd dir ->
  create_subprocess_shell env command dir = None ->
  captures env (resolve_timeout settings timeout) out err ->
  Z.of_nat (String.length out) + Z.of_nat (String.length err)
  <= Settings.max_output_size (Settings.execution settings) ->
  exists r tr,
    run_execute settings env command timeout cwd false = (Ok r, tr) /\
    stdout r = out /\ stderr r = err /\ truncated r = false.
Proof.
  intros Hdir Hspawn Hcap Hle.
  rewrite (run_execute_resolved _ _ _ _ _ _ _ Hdir).
  pose proof (len_le out) as Hlo. pose proof (len_le err) as Hle'.
  destruct Hcap as [out err code Hc | out err code Hc Hk Hd | code Hc Hk Hd];
    body_unfold; rewrite Hspawn, Hc; try rewrite Hd;
    split_paths env; cbn [app fst snd negb];
    try over_cap_contradiction;
    try (exfalso; eapply Hk; reflexivity);
    eexists; eexists; (split; [reflexivity|]); repeat split.
Qed.

Lemma execute_keeps_output_within_cap_witness :
  exists r tr,
    run_execute Settings.default (quick_env "hello" "" 0) "echo hello" None None false
    = (Ok r, tr) /\
    stdout r = "hello" /\ stderr r = "" /\ truncated r = false.
Proof.
  apply (execute_keeps_output_within_cap Settings.default (quick_env "hello" "" 0)
           "echo hello" None None "/home/user" "hello" "").
  - apply resolves_current; [left|]; reflexivity.
  - reflexivity.
  - now apply captures_finished with (code := 0).
  - vm_compute. discriminate.
Defined.

(** X14. For a command that ends within its timeout, under a non-negative
    output cap, the exit code of the result is the return code of the
    process, the result is not timed out, and it is a success exactly when
    that code is 0. *)
Theorem execute_reports_return_code settings env command timeout cwd dir out err code :
  0 <= Settings.max_output_size (Settings.execution settings) ->
  resolves_to settings env cwd dir ->
  create_subprocess_shell env command dir = None ->
  communicate env (resolve_timeout settings timeout) = Finished out err code ->
  exists r tr,
    run_execute settings env command timeout cwd false = (Ok r, tr) /\
    returncode r = code /\
    timed_out r = false /\
    success r = (code =? 0).
Proof.
  intros Hmax Hdir Hspawn Hc.
  destruct (enforce_limit_ok settings out err [Spawned command dir] Hmax)
    as [o [e [t Hl]]].
  assert (collect_output env (resolve_timeout settings timeout)
            [Spawned command dir]
          = (Ok (out, err, Some code, false), [Spawned command dir])) as Hcol
    by (unfold collect_output; now rewrite Hc).
  destruct (attempt_ok settings env command _ _ _ _ _ _ _ _ _ _ Hspawn Hcol Hl)
    as [tr2 Ha].
  rewrite (run_execute_resolved _ _ _ _ _ _ _ Hdir).
  unfold try_except. rewrite Ha.
  eexists _, tr2. split; [reflexivity|].
  unfold success, exit_code. cbn [returncode timed_out negb].
  destruct (Z.eqb_spec code 0) as [->|Hne]; [repeat split|].
  repeat split. rewrite andb_true_r. now apply Z.eqb_neq.
Qed.

Lemma execute_reports_return_code_witness :
  exists r tr,
    run_execute Settings.default (quick_env "" "" 1) "false" None None false
    = (Ok r, tr) /\
    returncode r = 1 /\ timed_out r = false /\ success r = false.
Proof.
  apply (execute_reports_return_code Settings.default (quick_env "" "" 1)
           "false" None None "/home/user" "" "" 1).
  - vm_compute. discriminate.
  - apply resolves_current; [left|]; reflexivity.
  - reflexivity.
  - reflexivity.
Defined.

(** X15. Under a negative output cap, a command that writes nothing makes
    the proportional split divide by zero: the process has run, yet the
    result is the error result, with exit code 1 and the division error in
    its stderr. *)
Theorem execute_negative_cap_divides_by_zero settings env command timeout cwd dir code :
  Settings.max_output_size (Settings.execution settings) < 0 ->
  resolves_to settings env cwd dir ->
  create_subprocess_shell env command dir = None ->
  communicate env (resolve_timeout settings timeout) = Finished "" "" code ->
  exists r tr,
    run_execute settings env command timeout cwd false = (Ok r, tr) /\
    returncode r = 1 /\
    stderr r = "Execution error: division by zero" /\
    spawned tr = true.
Proof.
  intros Hneg Hdir Hspawn Hc.
  rewrite (run_execute_resolved _ _ _ _ _ _ _ Hdir).
  body_unfold. rewrite Hspawn, Hc. change (len "") with 0. cbn [Z.add].
  destruct (Z.gtb_spec 0 (Settings.max_output_size (Settings.execution settings)))
    as [_|Hle]; [|lia].
  cbn [Z.eqb]. split_paths env; cbn [app fst snd negb];
    eexists; eexists; (split; [reflexivity|]); repeat split.
Qed.

Lemma execute_negative_cap_divides_by_zero_witness :
  exists r tr,
    run_execute negative_cap (quick_env "" "" 0) "true" None None false = (Ok r, tr) /\
    returncode r = 1 /\
    stderr r = "Execution error: division by zero" /\
    spawned tr = true.
Proof.
  apply (execute_negative_cap_divides_by_zero negative_cap (quick_env "" "" 0)
           "true" None None "/home/user" 0).
  - vm_compute. reflexivity.
  - apply resolves_current; [left|]; reflexivity.
  - reflexivity.
  - reflexivity.
Defined.

Lemma substring_0_prefix (n : nat) (s : string) :
  exists rest, s = substring 0 n s ++ rest.
Proof.
  revert n; induction s as [|c s IH]; intros [|n]; simpl.
  - now exists "".
  - now exists "".
  - now exists (String c s).
  - destruct (IH n) as [rest Hr]. exists rest. now rewrite <- Hr.
Qed.

Lemma slice_to_prefix (n : Z) (s : string) : exists rest, s = slice_to n s ++ rest.
Proof. unfold slice_to. apply substring_0_prefix. Qed.

(** X16. [execute] never rewrites what the process wrote: under a
    non-negative cap, each stream of the result is the captured stream
    itself or, when the output is truncated, a prefix of the captured stream
    followed by the truncation marker. *)
Theorem execute_output_is_prefix settings env command timeout cwd dir out err :
  0 <= Settings.max_output_size (Settings.execution settings) ->
  resolves_to settings env cwd dir ->
  create_subprocess_shell env command dir = None ->
  captures env (resolve_timeout settings timeout) out err ->
  exists r tr,
    run_execute settings env command timeout cwd false = (Ok r, tr) /\
    (if truncated r
     then exists kept_out cut_out kept_err cut_err,
            out = kept_out ++ cut_out /\ err = kept_err ++ cut_err /\
            stdout r = kept_out ++ truncation_marker /\
            stderr r = kept_err ++ truncation_marker
     else stdout r = out /\ stderr r = err).
Proof.
  intros Hmax Hdir Hspawn Hcap.
  destruct (collect_output_captures env _ out err [Spawned command dir] Hcap)
    as [code [flag [tr1 Hcol]]].
  assert (exists o e t,
             enforce_limit settings out err tr1 = (Ok (o, e, t), tr1) /\
             (if t
              then exists kept_out cut_out kept_err cut_err,
                     out = kept_out ++ cut_out /\ err = kept_err ++ cut_err /\
                     o = kept_out ++ truncation_marker /\
                     e = kept_err ++ truncation_marker
              else o = out /\ e = err)) as [o [e [t [Hl Hshape]]]].
  { unfold enforce_limit. cbv zeta.
    destruct (_ >? _) eqn:E; [|unfold ret; eexists _, _, false; now split].
    apply Z.gtb_gt in E.
    destruct (Z.eqb_spec (len out + len err) 0) as [H0|_]; [lia|].
    destruct (output_limits_ok _ out err Hmax) as [[lo le] Hlim]; [lia|].
    rewrite Hlim. unfold ret.
    eexists _, _, true. split; [reflexivity|].
    destruct (slice_to_prefix lo out) as [cut_out Ho].
    destruct (slice_to_prefix le err) as [cut_err He].
    exists (slice_to lo out), cut_out, (slice_to le err), cut_err.
    repeat split; assumption. }
  destruct (attempt_ok settings env command _ _ _ _ _ _ _ _ _ _ Hspawn Hcol Hl)
    as [tr2 Ha].
  rewrite (run_execute_resolved _ _ _ _ _ _ _ Hdir).
  unfold try_except. rewrite Ha.
  eexists _, tr2. split; [reflexivity | exact Hshape].
Qed.

Lemma execute_output_is_prefix_witness :
  exists r tr,
    run_execute small_cap noisy_env "noisy" None None false = (Ok r, tr) /\
    (if truncated r
     then exists kept_out cut_out kept_err cut_err,
            repeat_char "o" 600 = kept_out ++ cut_out /\
            repeat_char "e" 400 = kept_err ++ cut_err /\
            stdout r = kept_out ++ truncation_marker /\
            stderr r = kept_err ++ truncation_marker
     else stdout r = repeat_char "o" 600 /\ stderr r = repeat_char "e" 400).
Proof.
  apply (execute_output_is_prefix small_cap noisy_env "noisy" None None "/home/user").
  - vm_compute. discriminate.
  - apply resolves_current; [left|]; reflexivity.
  - reflexivity.
  - now apply captures_finished with (code := 0).
Defined.

Lemma run_execute_spawns_first settings env command timeout cwd dir :
  resolves_to settings env cwd dir ->
  create_subprocess_shell env command dir = None ->
  exists r rest,
    run_execute settings env command timeout cwd false
    = (Ok r, Spawned command dir :: rest).
Proof.
  intros Hdir Hspawn. rewrite (run_execute_resolved _ _ _ _ _ _ _ Hdir).
  body_unfold. rewrite Hspawn.
  split_paths env; cbn [app]; eexists; eexists; reflexivity.
Qed.

Lemma run_execute_spawn_events settings env command timeout cwd dry_run :
  let tr := snd (run_execute settings env command timeout cwd dry_run) in
  (List.length (filter is_spawn tr) <= 1)%nat /\
  forall c d, In (Spawned c d) tr -> c = command.
Proof.
  destruct (resolve_cwd settings env cwd) as [dir|e0] eqn:Hdir.
  - apply resolve_cwd_spec in Hdir.
    rewrite (run_execute_resolved _ _ _ _ _ _ _ Hdir).
    destruct dry_run.
    + split; [cbn; lia | intros c d []].
    + body_paths env; cbn [snd filter is_spawn List.length In];
        (split; [lia|]); intros c d H;
        repeat match goal with
               | H : _ \/ _ |- _ => destruct H
               | H : False |- _ => destruct H
               | H : Spawned _ _ = Spawned _ _ |- _ => injection H as <- <-
               | H : _ = Spawned _ _ |- _ => discriminate H
               end; reflexivity.
  - rewrite (run_execute_unresolved _ _ _ _ _ _ _ Hdir).
    split; [cbn; lia | intros c d []].
Qed.

Lemma run_execute_spawn_failure settings env command timeout cwd dir e :
  resolves_to settings env cwd dir ->
  create_subprocess_shell env command dir = Some e ->
  exists r tr,
    run_execute settings env command timeout cwd false = (Ok r, tr) /\
    success r = false /\
    stderr r = "Execution error: " ++ str_of_exn e /\
    spawned tr = false.
Proof.
  intros Hdir Hspawn. rewrite (run_execute_resolved _ _ _ _ _ _ _ Hdir).
  body_unfold. rewrite Hspawn.
  split_paths env; cbn [app]; eexists; eexists;
    (split; [reflexivity|]); repeat split.
Qed.

End ExecutorExtras.

(** ** Properties of the command line *)

Module CliFacts.
Import PyStr Settings Safety Executor Spec SafetySpec ExecutorSpec ExtraSpec Cli.
Import PyStrFacts SafetyFacts ExecutorFacts ExecutorExtras.

(** *** Confirmation and execution *)

Lemma confirm_action_yes (response : string) :
  confirm_action response false = true ->
  lower (strip response) = "y" \/ lower (strip response) = "yes".
Proof.
  unfold confirm_action.
  destruct (String.eqb (lower (strip response)) ""); [discriminate|].
  intros H. apply mem_string_spec in H.
  destruct H as [<-|[<-|[]]]; auto.
Qed.

(** X17. In the rule-based branch of [process_query], a command for which
    the validator asks a confirmation is spawned only if the user answered
    y or yes (letter case and surrounding blanks ignored) and the call is
    not a dry run: an empty or any other answer runs nothing. *)
Theorem confirmation_gates_execution settings os env response command dry_run :
  fst (requires_confirmation settings os command) = true ->
  spawned (snd (run_rule_based settings os env response command dry_run)) = true ->
  (lower (strip response) = "y" \/ lower (strip response) = "yes")
  /\ dry_run = false.
Proof.
  unfold run_rule_based.
  destruct (requires_confirmation settings os command) as [b reason].
  cbn [fst]. intros ->. cbn [andb].
  destruct (confirm_action response false) eqn:Hc; cbn [negb];
    [|discriminate].
  destruct dry_run; [discriminate|].
  intros _. split; [now apply confirm_action_yes | reflexivity].
Qed.

Lemma confirmation_gates_execution_witness :
  (lower (strip " Yes ") = "y" \/ lower (strip " Yes ") = "yes") /\ false = false.
Proof.
  apply (confirmation_gates_execution default no_processes (quick_env "" "" 0)
           " Yes " "kill 4242" false); reflexivity.
Defined.

(** X18. A dry run of the rule-based branch never reaches the executor:
    whatever the command and the answer of the user, no process is spawned
    and no history line is written. *)
Theorem dry_run_reaches_no_executor settings os env response command :
  snd (run_rule_based settings os env response command true) = [].
Proof.
  unfold run_rule_based.
  destruct (requires_confirmation settings os command) as [[] reason];
    cbn [andb]; [|reflexivity].
  now destruct (confirm_action response false).
Qed.

(** X19. Nothing in the rule-based branch blocks a command: when no
    confirmation is asked, or the user confirms, a command whose spawn
    succeeds is spawned as it is, whatever reason the validator gave, a
    protected kill target included. *)
Theorem confirmed_command_is_spawned settings os env response command dir :
  fst (requires_confirmation settings os command) = false
  \/ confirm_action response false = true ->
  resolves_to settings env None dir ->
  create_subprocess_shell env command dir = None ->
  exists rest,
    snd (run_rule_based settings os env response command false)
    = Spawned command dir :: rest.
Proof.
  intros Hgo Hdir Hspawn. unfold run_rule_based.
  destruct (run_execute_spawns_first settings env command None None dir Hdir Hspawn)
    as [r [rest Hrun]].
  destruct (requires_confirmation settings os command) as [b reason].
  cbn [fst] in Hgo.
  assert (b && negb (confirm_action response false) = false) as ->.
  { destruct Hgo as [-> | ->]; [reflexivity | apply andb_false_r]. }
  rewrite Hrun. now exists rest.
Qed.

Lemma confirmed_command_is_spawned_witness :
  fst (validate_kill_command default no_processes "kill 1") = (false, Some "PID 1 is a protected system process")
  /\ exists rest,
       snd (run_rule_based default no_processes (quick_env "" "" 0) "y" "kill 1" false)
       = Spawned "kill 1" "/home/user" :: rest.
Proof.
  split; [reflexivity|].
  apply (confirmed_command_is_spawned default no_processes (quick_env "" "" 0)
           "y" "kill 1" "/home/user").
  - right. reflexivity.
  - apply resolves_current; [left|]; reflexivity.
  - reflexivity.
Defined.

(** *** The display of long output *)

Lemma split_lines_not_nil (s : string) : split_lines s <> [].
Proof.
  induction s as [|c s IH]; simpl; [discriminate|].
  destruct (Ascii.eqb c "010"); [discriminate|].
  destruct (split_lines s); [contradiction | discriminate].
Qed.

Lemma split_lines_no_line_feed (s : string) :
  Forall (fun line => no_line_feed line = true) (split_lines s).
Proof.
  induction s as [|c s IH]; simpl; [now repeat constructor|].
  destruct (Ascii.eqb c "010") eqn:E; [now constructor|].
  destruct (split_lines s) as [|line rest];
    [repeat constructor; simpl; now rewrite E|].
  inversion IH as [|? ? Hl Hr]; subst.
  constructor; [simpl; now rewrite E, Hl | assumption].
Qed.

Lemma split_lines_single (x : string) :
  no_line_feed x = true -> split_lines x = [x].
Proof.
  induction x as [|c x IH]; simpl; [reflexivity|].
  intros H. apply andb_true_iff in H as [Hc Hx].
  apply negb_true_iff in Hc. now rewrite Hc, (IH Hx).
Qed.

Lemma split_lines_append (x rest : string) :
  no_line_feed x = true ->
  split_lines (x ++ String "010" rest) = x :: split_lines rest.
Proof.
  induction x as [|c x IH]; simpl; [reflexivity|].
  intros H. apply andb_true_iff in H as [Hc Hx].
  apply negb_true_iff in Hc. now rewrite Hc, (IH Hx).
Qed.

(** Splitting at line feeds undoes a join with line feeds. *)
Lemma split_lines_join_lines (lines : list string) :
  lines <> [] ->
  Forall (fun line => no_line_feed line = true) lines ->
  split_lines (join_lines lines) = lines.
Proof.
  unfold join_lines.
  induction lines as [|x lines IH]; [congruence|].
  intros _ Hall. inversion Hall as [|? ? Hx Hrest]; subst.
  destruct lines as [|y lines]; [now apply split_lines_single|].
  change (join (String "010" "") (x :: y :: lines))
    with (x ++ String "010" (join (String "010" "") (y :: lines))).
  rewrite (split_lines_append _ _ Hx), IH; [reflexivity | discriminate | assumption].
Qed.

Lemma no_line_feed_append (a b : string) :
  no_line_feed (a ++ b) = no_line_feed a && no_line_feed b.
Proof.
  induction a as [|c a IH]; simpl; [reflexivity|].
  now rewrite IH, andb_assoc.
Qed.

Lemma no_line_feed_uint (d : Decimal.uint) :
  no_line_feed (NilEmpty.string_of_uint d) = true.
Proof. induction d; simpl; auto. Qed.

Lemma no_line_feed_of_Z (z : Z) : no_line_feed (of_Z z) = true.
Proof.
  unfold of_Z, NilZero.string_of_int, NilZero.string_of_uint.
  destruct (Z.to_int z) as [d|d]; destruct d;
    try reflexivity; simpl; try apply no_line_feed_uint.
Qed.

Lemma Forall_firstn_lines {A} (P : A -> Prop) (n : nat) (l : list A) :
  Forall P l -> Forall P (firstn n l).
Proof.
  intros H. revert n; induction H; intros [|n]; simpl; constructor; auto.
Qed.

Lemma Forall_skipn_lines {A} (P : A -> Prop) (n : nat) (l : list A) :
  Forall P l -> Forall P (skipn n l).
Proof.
  intros H. revert n; induction H; intros [|n]; simpl; auto.
Qed.

(** X20. When an output of more than [max_lines] lines is shown truncated,
    for [max_lines] at least 1, the panel holds exactly [max_lines + 3]
    lines: the first [max_lines / 2] lines of the output, three lines
    telling how many lines are hidden, namely all but [max_lines], and the
    last [max_lines - max_lines / 2] lines of the output. *)
Theorem print_command_output_truncates (output : string) (max_lines : Z) :
  let lines := split_lines output in
  let n := Z.of_nat (List.length lines) in
  strip output <> "" ->
  1 <= max_lines ->
  max_lines < n ->
  let hidden := "(" ++ of_Z (n - max_lines) ++ " lines hidden)" in
  exists text,
    print_command_output output true max_lines = Shown OutputPanel text /\
    split_lines text
    = (firstn (Z.to_nat (max_lines / 2)) lines
       ++ ["..."; hidden; "..."]
       ++ skipn (Z.to_nat (n - (max_lines - max_lines / 2))) lines)%list /\
    Z.of_nat (List.length (split_lines text)) = max_lines + 3.
Proof.
  intros lines n Hout Hmin Hmore hidden.
  unfold print_command_output. fold lines. fold n.
  destruct (String.eqb_spec (strip output) "") as [H|_]; [contradiction|].
  destruct (Z.gtb_spec n max_lines) as [_|Hle]; [|lia]. cbn [andb].
  assert (0 <= max_lines / 2 /\ max_lines / 2 < max_lines
          /\ (- max_lines) / 2 = - (max_lines - max_lines / 2)) as [Hh0 [Hh1 Hneg]]
    by (Z.div_mod_to_equations; lia).
  assert (list_to (max_lines / 2) lines = firstn (Z.to_nat (max_lines / 2)) lines)
    as Hto.
  { unfold list_to, clamp_index. fold n.
    destruct (Z.ltb_spec (max_lines / 2) 0); [lia|].
    now rewrite Z.min_l by lia. }
  assert (list_from ((- max_lines) / 2) lines
          = skipn (Z.to_nat (n - (max_lines - max_lines / 2))) lines) as Hfrom.
  { unfold list_from, clamp_index. fold n. rewrite Hneg.
    destruct (Z.ltb_spec (- (max_lines - max_lines / 2)) 0); [|lia].
    rewrite Z.max_r by lia. f_equal; try (f_equal; lia). }
  rewrite Hto, Hfrom. eexists. split; [reflexivity|].
  assert (Forall (fun line => no_line_feed line = true) lines) as Hall
    by apply split_lines_no_line_feed.
  rewrite split_lines_join_lines.
  - split; [reflexivity|].
    rewrite !length_app, length_firstn, length_skipn. cbn [List.length].
    fold n. lia.
  - intros H. apply app_eq_nil in H as [_ H]. discriminate H.
  - apply Forall_app. split; [now apply Forall_firstn_lines|].
    apply Forall_app. split; [|now apply Forall_skipn_lines].
    repeat constructor.
    rewrite !no_line_feed_append, no_line_feed_of_Z. reflexivity.
Qed.

Lemma print_command_output_truncates_witness :
  exists text,
    print_command_output (join_lines ["1"; "2"; "3"; "4"; "5"; "6"; "7"]) true 5
    = Shown OutputPanel text /\
    split_lines text = ["1"; "2"; "..."; "(2 lines hidden)"; "..."; "5"; "6"; "7"].
Proof.
  destruct (print_command_output_truncates
              (join_lines ["1"; "2"; "3"; "4"; "5"; "6"; "7"]) 5)
    as [text [H1 [H2 _]]].
  - vm_compute. discriminate.
  - lia.
  - vm_compute. reflexivity.
  - exists text. split; [exact H1 | exact H2].
Defined.

(** *** Routing of the arguments *)

Lemma query_args_spec (args : list string) (a : string) :
  In a (query_args args) <-> In a args /\ ~ In a option_flags.
Proof.
  unfold query_args. rewrite filter_In, negb_true_iff.
  split; intros [H1 H2]; (split; [assumption|]).
  - intros Hin. apply mem_string_spec in Hin. congruence.
  - destruct (mem_string a option_flags) eqn:E; [|reflexivity].
    apply mem_string_spec in E. contradiction.
Qed.

(** an empty argument is kept, and makes an empty query *)
Example cli_empty_argument :
  cli [""] = (false, ProcessQuery "" false false false).
Proof. reflexivity. Qed.

(** X21. When [cli] hands the arguments to [process_query], the query is
    made of the arguments that are not option flags, in their order and
    joined by single spaces; at least one argument is kept, though the
    text they make may be empty; the lite, force-llm and dry-run switches
    are set exactly when their flag appears anywhere among the arguments,
    and debug logging exactly when --verbose or -v does. *)
Theorem cli_query_routing (args : list string) verbose query lite force_llm dry_run :
  cli args = (verbose, ProcessQuery query lite force_llm dry_run) ->
  query = join " " (query_args args)
  /\ query_args args <> []
  /\ (forall a, In a (query_args args) <-> In a args /\ ~ In a option_flags)
  /\ (lite = true <-> In "--lite" args)
  /\ (force_llm = true <-> In "--force-llm" args)
  /\ (dry_run = true <-> In "--dry-run" args)
  /\ (verbose = true <-> In "--verbose" args \/ In "-v" args).
Proof.
  unfold cli. destruct args as [|first rest]; [discriminate|].
  remember (first :: rest) as args eqn:Hargs.
  destruct (mem_string first ["--help"; "-h"]); [discriminate|].
  destruct (match first_non_option args with
            | Some first_arg => mem_string first_arg known_commands
            | None => false
            end); [discriminate|].
  pose proof (mem_string_spec "--lite" args) as Hlite.
  pose proof (mem_string_spec "--force-llm" args) as Hforce.
  pose proof (mem_string_spec "--dry-run" args) as Hdry.
  pose proof (mem_string_spec "--verbose" args) as Hverbose.
  pose proof (mem_string_spec "-v" args) as Hv.
  destruct (mem_string "--lite" args), (mem_string "--force-llm" args),
    (mem_string "--dry-run" args), (mem_string "--verbose" args),
    (mem_string "-v" args);
    (destruct (query_args args) as [|q qs] eqn:Hq; [discriminate|]);
    intros [= <- <- <- <- <-];
    (split; [reflexivity|]); (split; [discriminate|]);
    (split; [intros a; rewrite <- Hq; apply query_args_spec|]);
    cbn [orb]; intuition congruence.
Qed.

Lemma cli_query_routing_witness :
  "check disk space --foo"
  = join " " (query_args ["--dry-run"; "check"; "disk"; "-v"; "space"; "--foo"])
  /\ (true = true <->
      In "--dry-run" ["--dry-run"; "check"; "disk"; "-v"; "space"; "--foo"]).
Proof.
  destruct (cli_query_routing ["--dry-run"; "check"; "disk"; "-v"; "space"; "--foo"]
              true "check disk space --foo" false false true eq_refl)
    as [H1 [_ [_ [_ [_ [H2 _]]]]]].
  split; [exact H1 | exact H2].
Defined.

(** X22. A first non-option argument that names a subcommand sends the
    whole command line to the Typer application: a query that begins with
    init, config, plugins or capabilities is never processed as a query. *)
Theorem cli_subcommand_shadows_query (args : list string) (first_arg : string) :
  first_non_option args = Some first_arg ->
  In first_arg known_commands ->
  cli args = (false, TyperApp).
Proof.
  intros Hfirst Hknown. unfold cli.
  destruct args as [|first rest]; [reflexivity|].
  destruct (mem_string first ["--help"; "-h"]); [reflexivity|].
  rewrite Hfirst.
  assert (mem_string first_arg known_commands = true) as ->
    by now apply mem_string_spec.
  reflexivity.
Qed.

Lemma cli_subcommand_shadows_query_witness :
  cli ["--lite"; "config"; "is"; "broken"] = (false, TyperApp).
Proof.
  apply (cli_subcommand_shadows_query ["--lite"; "config"; "is"; "broken"] "config").
  - reflexivity.
  - right. now left.
Defined.

End CliFacts.

(** ** Properties of the system plugin *)

Module SystemPluginFacts.
Import PyStr Settings Executor Spec ExecutorSpec ExtraSpec SystemPlugin.
Import PyStrFacts ExecutorFacts ExecutorExtras.

Lemma report_output_shape (r : CommandResult) : reports_outcome (report_output r).
Proof.
  unfold report_output, reports_outcome. destruct (success r); cbn; eauto.
Qed.

(** what [execute_sync] makes of a call of [execute] *)
Lemma execute_sync_run settings machine command tr :
  execute_sync settings machine command tr
  = (fst (run_execute settings (machine command) command None None false),
     (tr ++ snd (run_execute settings (machine command) command None None false))%list).
Proof.
  unfold execute_sync.
  now destruct (run_execute settings (machine command) command None None false).
Qed.

(** X23. Whenever one of the tools of the system plugin that run one
    command, or [get_os_info], returns, its dictionary reports either a
    success, with no error entry, or a failure together with an error
    message. *)
Theorem system_tools_report_outcome settings machine d tr :
  check_disk_space settings machine [] = (Ok d, tr)
  \/ check_memory settings machine [] = (Ok d, tr)
  \/ get_uptime settings machine [] = (Ok d, tr)
  \/ get_os_info settings machine [] = (Ok d, tr) ->
  reports_outcome d.
Proof.
  unfold check_disk_space, check_memory, get_uptime, get_os_info, bind.
  intros [H | [H | [H | H]]]; revert H; rewrite execute_sync_run.
  - destruct (fst _) as [r|e]; [|discriminate].
    unfold ret. intros [= <- _]. apply report_output_shape.
  - destruct (fst _) as [r|e]; [|discriminate].
    unfold ret. intros [= <- _]. apply report_output_shape.
  - destruct (fst _) as [r|e]; [|discriminate].
    unfold ret. intros [= <- _].
    unfold reports_outcome. destruct (success r); cbn; eauto.
  - destruct (fst _) as [r|e]; [|discriminate].
    destruct (success r) eqn:Hs; cbn [negb].
    + unfold ret. rewrite Hs. intros [= <- _].
      unfold reports_outcome. cbn. eauto.
    + rewrite execute_sync_run.
      destruct (fst _) as [r2|e2]; [|discriminate].
      unfold ret. intros [= <- _].
      unfold reports_outcome. destruct (success r2); cbn; eauto.
Qed.

Lemma system_tools_report_outcome_witness :
  get_os_info default lsb_machine []
  = (Ok [("success", VBool true); ("output", VStr "Distributor ID: Fedora")],
     [Spawned "cat /etc/os-release" "/home/user";
      HistoryLine ("2024-01-01T00:00:00 | FAILED | cat /etc/os-release" ++ newline);
      Spawned "lsb_release -a" "/home/user";
      HistoryLine ("2024-01-01T00:00:00 | SUCCESS | lsb_release -a" ++ newline)])
  /\ reports_outcome
       [("success", VBool true); ("output", VStr "Distributor ID: Fedora")].
Proof.
  split; [reflexivity|].
  apply (system_tools_report_outcome default lsb_machine _
           [Spawned "cat /etc/os-release" "/home/user";
            HistoryLine ("2024-01-01T00:00:00 | FAILED | cat /etc/os-release" ++ newline);
            Spawned "lsb_release -a" "/home/user";
            HistoryLine ("2024-01-01T00:00:00 | SUCCESS | lsb_release -a" ++ newline)]).
  right. right. right. reflexivity.
Defined.

(** X24. A command that cannot be spawned surfaces through the plugin as
    a failure report: [check_disk_space] answers with success false and the
    error message of the executor, and no process is started. *)
Theorem check_disk_space_reports_spawn_failure settings machine dir e :
  resolves_to settings (machine "df -h") None dir ->
  create_subprocess_shell (machine "df -h") "df -h" dir = Some e ->
  exists tr,
    check_disk_space settings machine []
    = (Ok [("success", VBool false);
           ("error", VStr ("Execution error: " ++ str_of_exn e))], tr) /\
    spawned tr = false.
Proof.
  intros Hdir Hspawn.
  destruct (run_execute_spawn_failure settings (machine "df -h") "df -h" None None
              dir e Hdir Hspawn) as [r [tr [Hrun [Hs [He Hsp]]]]].
  unfold check_disk_space, bind, execute_sync. rewrite Hrun. unfold ret.
  exists tr. split; [|assumption].
  unfold report_output. rewrite Hs, He. reflexivity.
Qed.

Lemma check_disk_space_reports_spawn_failure_witness :
  exists tr,
    check_disk_space default broken_machine []
    = (Ok [("success", VBool false);
           ("error",
            VStr "Execution error: [Errno 13] Permission denied: '/bin/sh'")], tr) /\
    spawned tr = false.
Proof.
  apply (check_disk_space_reports_spawn_failure default broken_machine
           "/home/user" (PyException "[Errno 13] Permission denied: '/bin/sh'")).
  - apply resolves_current; [left|]; reflexivity.
  - reflexivity.
Defined.

(** X25. [get_os_info] starts at most two processes, and runs
    [lsb_release -a] only after reading [/etc/os-release] did not succeed. *)
Theorem get_os_info_falls_back settings machine :
  let tr := snd (get_os_info settings machine []) in
  (List.length (filter is_spawn tr) <= 2)%nat /\
  (forall cwd,
      In (Spawned "lsb_release -a" cwd) tr ->
      exists r tr1,
        run_execute settings (machine "cat /etc/os-release")
          "cat /etc/os-release" None None false = (Ok r, tr1) /\
        success r = false).
Proof.
  unfold get_os_info, bind. rewrite execute_sync_run.
  pose proof (run_execute_spawn_events settings (machine "cat /etc/os-release")
                "cat /etc/os-release" None None false) as [Hlen Hcmd].
  destruct (run_execute settings (machine "cat /etc/os-release")
              "cat /etc/os-release" None None false) as [[r|e] tr1] eqn:Hrun;
    cbn [fst snd app] in *.
  - destruct (success r) eqn:Hs; cbn [negb].
    + unfold ret. cbn [snd]. split; [lia|].
      intros cwd Hin. apply Hcmd in Hin. discriminate Hin.
    + rewrite execute_sync_run.
      pose proof (run_execute_spawn_events settings (machine "lsb_release -a")
                    "lsb_release -a" None None false) as [Hlen2 _].
      destruct (run_execute settings (machine "lsb_release -a")
                  "lsb_release -a" None None false) as [[r2|e2] tr2];
        cbn [fst snd] in *; unfold ret; cbn [snd];
        (split; [rewrite filter_app, length_app; lia|]);
        intros _ _; now exists r, tr1.
  - split; [lia|].
    intros cwd Hin. apply Hcmd in Hin. discriminate Hin.
Qed.

End SystemPluginFacts.
